(** * Stream selection and download/mux pipeline of [youtube.py]

    A shallow embedding of the command-line downloader: the catalogue
    queries of [main], the interactive [select_resolution], the
    retrieval, mux and clean-up sequence of [download_and_merge] and the
    interrupt handler of the [__main__] block, followed by the properties
    the specification states about them. *)

From Stdlib Require Import List String Ascii ZArith NArith Bool Lia.
From Stdlib Require Import Sorted DecimalString DecimalN.
Import ListNotations.

Local Open Scope string_scope.
Local Open Scope list_scope.

(** [a +++ b] is the concatenation of two texts (Python's [a + b] and the
    pieces of an f-string). *)
Infix "+++" := String.append (right associativity, at level 60).

(** ** Text helpers *)

Module Text.

Definition nl : string := String "010"%char EmptyString.

(** [str(n)] for a natural number and for an integer. *)
Definition of_N (n : N) : string := NilEmpty.string_of_uint (N.to_uint n).
Definition of_Z (z : Z) : string := NilZero.string_of_int (Z.to_int z).

(** [needle in haystack] on strings. *)
Fixpoint contains (haystack needle : string) : bool :=
  orb (String.prefix needle haystack)
      match haystack with
      | EmptyString => false
      | String _ rest => contains rest needle
      end.

End Text.

(** ** The stream catalogue *)

Module Catalog.

(** Modelled from the spec: the stream descriptor class belongs to the
    external catalogue library and is not part of the repository.  A
    descriptor carries its [kind], a [resolution] (the nominal height [h],
    displayed as the label [<h>p], present for video descriptors), an
    average bitrate [abr] (in kbps, displayed as [<n>kbps], present for
    audio descriptors) and its container tag [subtype].  [Progressive]
    descriptors carry both tracks; the two other kinds are the adaptive
    ones.  [itag] identifies the representation. *)
Inductive Kind := VideoOnly | AudioOnly | Progressive.

Record Stream := mkStream {
  itag : N;
  kind : Kind;
  subtype : string;
  resolution : option N;
  abr : option N
}.

Definition res_text (h : N) : string := Text.of_N h +++ "p".

(** [f"{stream.resolution}"]. *)
Definition fmt_resolution (r : option N) : string :=
  match r with
  | Some h => res_text h
  | None => "None"
  end.

(** The keyword criteria of [StreamQuery.filter] used by [main]. *)
Definition adaptive (s : Stream) : bool :=
  match kind s with Progressive => false | _ => true end.
Definition only_video (s : Stream) : bool :=
  match kind s with VideoOnly => true | _ => false end.
Definition only_audio (s : Stream) : bool :=
  match kind s with AudioOnly => true | _ => false end.
Definition file_extension (ext : string) (s : Stream) : bool :=
  String.eqb (subtype s) ext.
Definition res (h : N) (s : Stream) : bool :=
  match resolution s with
  | Some h' => N.eqb h' h
  | None => false
  end.

(** [query.filter(...)]: the descriptors meeting every criterion, in
    catalogue order. *)
Definition filter_by (criteria : list (Stream -> bool)) (q : list Stream)
  : list Stream :=
  filter (fun s => forallb (fun c => c s) criteria) q.

(** Stable insertion of [x] into a list ordered by [key]. *)
Fixpoint insert_by (key : Stream -> N) (x : Stream) (l : list Stream)
  : list Stream :=
  match l with
  | [] => [x]
  | y :: l' =>
      if (key x <=? key y)%N then x :: l else y :: insert_by key x l'
  end.

(** [sorted(l, key=key)]: ascending and stable. *)
Fixpoint sorted_by (key : Stream -> N) (l : list Stream) : list Stream :=
  match l with
  | [] => []
  | x :: l' => insert_by key x (sorted_by key l')
  end.

Definition has_attribute (attr : Stream -> option N) (s : Stream) : bool :=
  match attr s with Some _ => true | None => false end.

Definition attr_key (attr : Stream -> option N) (s : Stream) : N :=
  match attr s with Some n => n | None => 0%N end.

(** [query.order_by(attribute)]: drops the descriptors without the
    attribute and sorts the others, ascending, by the number that the
    label of the attribute shows ([1080] for [1080p], [128] for
    [128kbps]). *)
Definition order_by (attr : Stream -> option N) (q : list Stream)
  : list Stream :=
  sorted_by (attr_key attr) (filter (has_attribute attr) q).

(** [query.desc()] and [query.first()]. *)
Definition desc (q : list Stream) : list Stream := rev q.
Definition first (q : list Stream) : option Stream := hd_error q.

End Catalog.

Import Catalog.

(** ** Resolution selector: the catalogue side *)

(** Lines 186-190 of [main]: the adaptive, video-only, mp4 descriptors,
    highest resolution first. *)
Definition video_streams (streams : list Stream) : list Stream :=
  desc (order_by resolution
          (filter_by [adaptive; only_video; file_extension "mp4"] streams)).

Definition mem_N (x : N) (l : list N) : bool := existsb (N.eqb x) l.

(** One turn of the [for stream in video_streams] loop of
    [select_resolution], on the list [resolucoes] built so far.  The test
    [if resolucao] is the presence of a label: a label [<h>p] is never the
    empty text. *)
Definition collect (resolucoes : list N) (stream : Stream) : list N :=
  match resolution stream with
  | Some resolucao =>
      if negb (mem_N resolucao resolucoes)
      then resolucoes ++ [resolucao]
      else resolucoes
  | None => resolucoes
  end.

(** The list [resolucoes] once the loop is over. *)
Definition resolucoes_of (vs : list Stream) : list N :=
  fold_left collect vs [].

Definition availableResolutions (streams : list Stream) : list N :=
  resolucoes_of (video_streams streams).

(** Lines 194-203 of [main]. *)
Definition resolve_video (streams : list Stream) (resolucao_escolhida : N)
  : option Stream :=
  first (filter_by [res resolucao_escolhida; only_video; file_extension "mp4"]
           streams).

Definition resolve_audio (streams : list Stream) : option Stream :=
  first (desc (order_by abr
                 (filter_by [only_audio; file_extension "mp4"] streams))).

Definition resolveDescriptors (streams : list Stream) (resolucao_escolhida : N)
  : option Stream * option Stream :=
  (resolve_video streams resolucao_escolhida, resolve_audio streams).

(** ** Effects: exceptions, the console, the disk and the outside world *)

(** The exceptions that occur in a run.  [Error cls msg] stands for an
    instance of any other subclass of [Exception] (an [OSError] of the disk
    or the network, an error of the catalogue library) with its text. *)
Inductive exn :=
| KeyboardInterrupt
| SystemExit (code : Z)
| EOFError
| ValueError (msg : string)
| IndexError
| CalledProcessError (cmd : list string) (returncode : N)
                     (output stderr : string)
| Error (cls msg : string).

(** What [except Exception], [except ValueError] and
    [except KeyboardInterrupt] catch. *)
Definition is_Exception (e : exn) : bool :=
  match e with
  | KeyboardInterrupt | SystemExit _ => false
  | _ => true
  end.

Definition is_ValueError (e : exn) : bool :=
  match e with ValueError _ => true | _ => false end.

Definition is_KeyboardInterrupt (e : exn) : bool :=
  match e with KeyboardInterrupt => true | _ => false end.

(** [repr] of a text without quotes or escapes, and of a list of them. *)
Definition repr_str (s : string) : string := "'" +++ s +++ "'".
Definition repr_list (l : list string) : string :=
  "[" +++ String.concat ", " (map repr_str l) +++ "]".

(** [str(e)], the text an f-string shows for [{e}]. *)
Definition str_exn (e : exn) : string :=
  match e with
  | KeyboardInterrupt => ""
  | SystemExit code => Text.of_Z code
  | EOFError => "EOF when reading a line"
  | ValueError msg => msg
  | IndexError => "list index out of range"
  | CalledProcessError cmd returncode _ _ =>
      "Command '" +++ repr_list cmd +++ "' returned non-zero exit status "
      +++ Text.of_N returncode +++ "."
  | Error _ msg => msg
  end.

(** What the outside world can do to a blocking call: deliver the user's
    interrupt signal, or make it fail with an ordinary error. *)
Inductive Fault :=
| Interrupted
| Failed (cls msg : string).

Definition exn_of_fault (f : Fault) : exn :=
  match f with
  | Interrupted => KeyboardInterrupt
  | Failed cls msg => Error cls msg
  end.

(** What [input()] meets on the keyboard: a typed line, the interrupt
    key, or end of input. *)
Inductive Key :=
| Typed (line : string)
| CtrlC
| CtrlD.

(** The remote asset as the catalogue library presents it: the attributes
    of the [YouTube] object that the program reads ([length] in seconds,
    [publish_date] already in day/month/year form). *)
Module YT.
Record Video := mkVideo {
  video_id : string;
  title : string;
  author : string;
  length : N;
  views : N;
  publish_date : string;
  streams : list Stream
}.
End YT.

Inductive DownloadOutcome :=
| Downloaded
| DownloadFault (f : Fault) (partial : bool).

Inductive MuxOutcome :=
| Exited (status : N) (stdout stderr : string)
| SpawnFault (f : Fault).

(** The collaborators of a run: the interpreter's [int], the text
    preparation of the slug library, the catalogue library, the external
    mux process and the operating system.  A child process killed by a
    signal is not modelled. *)
Record Env := mkEnv {
  home : string;
  int_of_str : string -> option Z;
  slug_prepare : string -> string;
  YouTube : string -> Fault + YT.Video;
  spinner_interrupted : string -> bool;
  stream_download : Stream -> string -> DownloadOutcome;
  ffmpeg : list string -> MuxOutcome;
  unlink : string -> option Fault
}.

(** What can be observed of a run, oldest first. *)
Inductive Event :=
| Printed (text : string)
| Prompted (text : string)
| Interrupt
| Retrieving (stream : N) (path : string)
| Spawned (cmd : list string)
| ProcessExited (status : N)
| Wrote (path : string)
| Deleted (path : string).

Record World := mkWorld {
  keys : list Key;
  disk0 : list string;
  events : list Event
}.

(** The files present after [evs], starting from the files [fs]. *)
Definition apply_event (fs : list string) (e : Event) : list string :=
  match e with
  | Wrote p => if existsb (String.eqb p) fs then fs else p :: fs
  | Deleted p => filter (fun q => negb (String.eqb q p)) fs
  | _ => fs
  end.

Definition replay (evs : list Event) (fs : list string) : list string :=
  fold_left apply_event evs fs.

Definition files (w : World) : list string := replay (events w) (disk0 w).

Definition exists_file (p : string) (w : World) : bool :=
  existsb (String.eqb p) (files w).

(** A computation returns, raises, or waits in [input()] for a line that
    has not been typed yet. *)
Inductive Res (A : Type) :=
| Ret (a : A)
| Raise (e : exn)
| Wait.
Arguments Ret {A} a.
Arguments Raise {A} e.
Arguments Wait {A}.

Definition M (A : Type) : Type := World -> Res A * World.

Definition ret {A} (a : A) : M A := fun w => (Ret a, w).

Definition bind {A B} (m : M A) (k : A -> M B) : M B :=
  fun w =>
    match m w with
    | (Ret a, w') => k a w'
    | (Raise e, w') => (Raise e, w')
    | (Wait, w') => (Wait, w')
    end.

Definition raise {A} (e : exn) : M A := fun w => (Raise e, w).

(** [try: m except <catches> as e: handler e]. *)
Definition try_except {A} (m : M A) (catches : exn -> bool)
  (handler : exn -> M A) : M A :=
  fun w =>
    match m w with
    | (Raise e, w') => if catches e then handler e w' else (Raise e, w')
    | other => other
    end.

Declare Scope py_scope.
Delimit Scope py_scope with py.
Notation "x <- m ;; k" := (bind m (fun x => k))
  (at level 61, m at next level, right associativity) : py_scope.
Notation "m ;; k" := (bind m (fun _ => k))
  (at level 61, right associativity) : py_scope.
Local Open Scope py_scope.

Definition emit (e : Event) : M unit :=
  fun w => (Ret tt, mkWorld (keys w) (disk0 w) (events w ++ [e])).

(** A fault of the outside world becomes the exception it raises; the
    interrupt signal is recorded when it is delivered. *)
Definition fault {A} (f : Fault) : M A :=
  match f with
  | Interrupted => emit Interrupt ;; raise KeyboardInterrupt
  | Failed cls msg => raise (Error cls msg)
  end.

Definition print (text : string) : M unit := emit (Printed text).

Definition sys_exit {A} (code : Z) : M A := raise (SystemExit code).

(** [input(prompt)]. *)
Definition input (prompt : string) : M string :=
  emit (Prompted prompt) ;;
  fun w =>
    match keys w with
    | [] => (Wait, w)
    | k :: rest =>
        let w' := mkWorld rest (disk0 w) (events w) in
        match k with
        | Typed line => (Ret line, w')
        | CtrlC => fault Interrupted w'
        | CtrlD => (Raise EOFError, w')
        end
    end.

(** [int(s)]. *)
Definition int (E : Env) (s : string) : M Z :=
  match int_of_str E s with
  | Some n => ret n
  | None =>
      raise (ValueError
               ("invalid literal for int() with base 10: " +++ repr_str s))
  end.

(** [l[i]] on a list, with Python's negative indices. *)
Definition getitem {A} (l : list A) (i : Z) : M A :=
  let n := Z.of_nat (List.length l) in
  let j := if (i <? 0)%Z then (n + i)%Z else i in
  if ((0 <=? j) && (j <? n))%Z then
    match nth_error l (Z.to_nat j) with
    | Some a => ret a
    | None => raise IndexError
    end
  else raise IndexError.

(** ** The program *)

Module Msg.
Definition banner : string := "
    ╔══════════════════════════════════════════╗
    ║          YouTube Video Downloader        ║
    ║                                          ║
    ║   Desenvolvido por [Rosonatt Ferreira]   ║
    ║              Versão 2.0                  ║
    ╚══════════════════════════════════════════╝
    ".
Definition ask_url : string := Text.nl +++ "📺 Digite a URL do vídeo: ".
Definition info_error (e : exn) : string :=
  Text.nl +++ "Erro ao obter informações do vídeo: " +++ str_exn e.
Definition resolutions_header : string :=
  Text.nl +++ "═══════════ Resoluções Disponíveis ═══════════".
Definition resolutions_footer : string :=
  "═════════════════════════════════════════════".
Definition resolution_line (n : nat) (resolucao : N) : string :=
  "  [" +++ Text.of_N (N.of_nat n) +++ "] " +++ res_text resolucao.
Definition ask_resolution : string :=
  Text.nl +++ "Selecione a resolução desejada [número]: ".
Definition invalid_option : string := "Opção inválida. Tente novamente.".
Definition not_a_number : string := "Por favor, digite um número válido.".
Definition merging : string := Text.nl +++ "Mesclando arquivos... ".
Definition success : string := Text.nl +++ "✔ Download concluído com sucesso!".
Definition saved (output_path : string) : string :=
  "📁 Arquivo salvo em: " +++ output_path.
Definition process_error (e : exn) : string :=
  Text.nl +++ "❌ Erro durante o processo: " +++ str_exn e.
Definition streams_not_found : string :=
  Text.nl +++ "❌ Erro: Streams não encontrados".
Definition cancelled : string :=
  Text.nl +++ Text.nl +++ "Operação cancelada pelo usuário.".
End Msg.

(** [os.system('cls' ...)]: nothing of it is observed. *)
Definition clear_screen : M unit := ret tt.

Definition print_banner : M unit := print Msg.banner.

(** The frames of the spinner are left out of the transcript; the two
    seconds it sleeps are a place where the interrupt signal can arrive. *)
Definition loading_animation (E : Env) (text : string) : M unit :=
  if spinner_interrupted E text then fault Interrupted else ret tt.

Record Info := mkInfo {
  info_title : string;
  info_author : string;
  info_length : string;
  info_views : string;
  info_publish_date : string
}.

Definition pad2 (n : N) : string :=
  if (n <? 10)%N then "0" +++ Text.of_N n else Text.of_N n.

(** [f"{n:,}"] on the digits of [n]. *)
Fixpoint commas (digits : string) : string :=
  match digits with
  | EmptyString => EmptyString
  | String c rest =>
      String c
        (if ((0 <? String.length rest) && (String.length rest mod 3 =? 0))%nat
         then "," +++ commas rest
         else commas rest)
  end.

(** Lines 57-69.  Line 62 takes the minutes from a floating point
    quotient, [int(yt.length/60)]; it truncates to the exact quotient
    written here for every length below [2^53] seconds. *)
Definition get_video_info (E : Env) (url : string) : M (YT.Video * Info) :=
  try_except
    (match YouTube E url with
     | inr yt =>
         let info :=
           mkInfo (YT.title yt) (YT.author yt)
                  (Text.of_N (YT.length yt / 60) +++ ":"
                     +++ pad2 (YT.length yt mod 60))
                  (commas (Text.of_N (YT.views yt)))
                  (YT.publish_date yt) in
         ret (yt, info)
     | inl f => fault f
     end)
    is_Exception
    (fun e => print (Msg.info_error e) ;; sys_exit 1).

Definition display_video_info (info : Info) : M unit :=
  print (Text.nl +++ "╔════════════ Informações do Vídeo ════════════╗") ;;
  print ("║ Título: " +++ String.substring 0 40 (info_title info)
           +++ (if (40 <? String.length (info_title info))%nat
                then "..." else "")) ;;
  print ("║ Canal: " +++ info_author info) ;;
  print ("║ Duração: " +++ info_length info) ;;
  print ("║ Visualizações: " +++ info_views info) ;;
  print ("║ Data de publicação: " +++ info_publish_date info) ;;
  print "╚═══════════════════════════════════════════════╝".

(** The [for] loop of [select_resolution], lines 100-104. *)
Fixpoint list_resolutions (video_streams : list Stream) (resolucoes : list N)
  : M (list N) :=
  match video_streams with
  | [] => ret resolucoes
  | stream :: rest =>
      match resolution stream with
      | Some resolucao =>
          if negb (mem_N resolucao resolucoes) then
            let resolucoes := resolucoes ++ [resolucao] in
            print (Msg.resolution_line (List.length resolucoes) resolucao) ;;
            list_resolutions rest resolucoes
          else list_resolutions rest resolucoes
      | None => list_resolutions rest resolucoes
      end
  end.

(** One turn of the [while True] loop, lines 108-114: [Some] label when
    the turn returns, [None] when it falls through to the next turn. *)
Definition attempt (E : Env) (resolucoes : list N) : M (option N) :=
  try_except
    (line <- input Msg.ask_resolution ;;
     n <- int E line ;;
     let opcao := (n - 1)%Z in
     if ((0 <=? opcao) && (opcao <? Z.of_nat (List.length resolucoes)))%Z then
       r <- getitem resolucoes opcao ;;
       ret (Some r)
     else
       print Msg.invalid_option ;;
       ret None)
    is_ValueError
    (fun _ => print Msg.not_a_number ;; ret None).

(** [while True: body]: the loop goes on until the body returns a value,
    raises, or waits for the keyboard.  Every turn of the loops of this
    program reads one key, so [fuel] turns are enough for [fuel] keys. *)
Fixpoint while_true {A} (fuel : nat) (body : M (option A)) : M A :=
  fun w =>
    match fuel with
    | O => (Wait, w)
    | S fuel' =>
        match body w with
        | (Ret (Some a), w') => (Ret a, w')
        | (Ret None, w') => while_true fuel' body w'
        | (Raise e, w') => (Raise e, w')
        | (Wait, w') => (Wait, w')
        end
    end.

Definition selection_loop (E : Env) (resolucoes : list N) : M N :=
  fun w => while_true (S (List.length (keys w))) (attempt E resolucoes) w.

Definition select_resolution (E : Env) (video_streams : list Stream) : M N :=
  print Msg.resolutions_header ;;
  resolucoes <- list_resolutions video_streams [] ;;
  print Msg.resolutions_footer ;;
  selection_loop E resolucoes.

(** ** Output naming *)

Module Slug.

Definition dash : ascii := "-"%char.

Definition is_dash (c : ascii) : bool := Ascii.eqb c dash.

(** The characters the slug library lets through: [-a-zA-Z0-9]. *)
Definition allowed (c : ascii) : bool :=
  let n := nat_of_ascii c in
  (is_dash c
   || ((48 <=? n) && (n <=? 57))
   || ((65 <=? n) && (n <=? 90))
   || ((97 <=? n) && (n <=? 122)))%nat.

Fixpoint map_chars (f : ascii -> ascii) (s : string) : string :=
  match s with
  | EmptyString => EmptyString
  | String c rest => String (f c) (map_chars f rest)
  end.

(** Every character that is not allowed becomes a dash. *)
Definition replace_disallowed (s : string) : string :=
  map_chars (fun c => if allowed c then c else dash) s.

(** Runs of dashes become one dash. *)
Fixpoint collapse_dashes (s : string) : string :=
  match s with
  | EmptyString => EmptyString
  | String c rest =>
      match rest with
      | String d _ =>
          if is_dash c && is_dash d then collapse_dashes rest
          else String c (collapse_dashes rest)
      | EmptyString => String c EmptyString
      end
  end.

Fixpoint lstrip_dashes (s : string) : string :=
  match s with
  | EmptyString => EmptyString
  | String c rest => if is_dash c then lstrip_dashes rest else s
  end.

Fixpoint rstrip_dashes (s : string) : string :=
  match s with
  | EmptyString => EmptyString
  | String c rest =>
      match rstrip_dashes rest with
      | EmptyString => if is_dash c then EmptyString else String c EmptyString
      | r => String c r
      end
  end.

(** [slugify(text)] with the library's default options.  The text is first
    prepared (entities decoded, transliterated to ASCII, lower-cased, quotes
    and digit-group commas removed: [slug_prepare], taken from the
    environment); then every run of characters outside [-a-zA-Z0-9] is
    replaced by a dash, repeated dashes are merged and the dashes at both
    ends are stripped. *)
Definition slugify (E : Env) (text : string) : string :=
  rstrip_dashes
    (lstrip_dashes
       (collapse_dashes (replace_disallowed (slug_prepare E text)))).

Fixpoint all_chars (P : ascii -> bool) (s : string) : bool :=
  match s with
  | EmptyString => true
  | String c rest => P c && all_chars P rest
  end.

End Slug.

(** [directory / name]. *)
Definition path_join (directory name : string) : string :=
  directory +++ "/" +++ name.
Infix "//" := path_join (at level 40, left associativity).

(** The three file names of [download_and_merge], lines 127-130. *)
Definition video_name (yt : YT.Video) : string :=
  YT.video_id yt +++ "_video.mp4".
Definition audio_name (yt : YT.Video) : string :=
  YT.video_id yt +++ "_audio.mp4".
Definition output_name (E : Env) (yt : YT.Video) (video_stream : Stream)
  : string :=
  Slug.slugify E (YT.title yt) +++ "_"
    +++ fmt_resolution (resolution video_stream) +++ ".mp4".

(** ** Retrieval, mux and clean-up *)

(** [stream.download(output_path=..., filename=...)]. *)
Definition download (E : Env) (stream : Stream) (output_path filename : string)
  : M unit :=
  let path := output_path // filename in
  emit (Retrieving (itag stream) path) ;;
  match stream_download E stream path with
  | Downloaded => emit (Wrote path)
  | DownloadFault f partial =>
      (if partial then emit (Wrote path) else ret tt) ;;
      fault f
  end.

(** [subprocess.run(cmd, check=True, capture_output=True)] on the mux
    command, whose last argument is the file the process writes.  The
    captured [stdout] and [stderr] go nowhere but into the exception. *)
Definition subprocess_run (E : Env) (cmd : list string) : M unit :=
  emit (Spawned cmd) ;;
  match ffmpeg E cmd with
  | Exited status stdout stderr =>
      (if (status =? 0)%N then emit (Wrote (last cmd "")) else ret tt) ;;
      emit (ProcessExited status) ;;
      if (status =? 0)%N then ret tt
      else raise (CalledProcessError cmd status stdout stderr)
  | SpawnFault f => fault f
  end.

(** [os.remove(path)]. *)
Definition os_remove (E : Env) (path : string) : M unit :=
  fun w =>
    if exists_file path w then
      match unlink E path with
      | None => emit (Deleted path) w
      | Some f => fault f w
      end
    else
      raise (Error "FileNotFoundError"
               ("[Errno 2] No such file or directory: " +++ repr_str path)) w.

Definition ffmpeg_cmd (video_path audio_path output_path : string)
  : list string :=
  [ "ffmpeg"; "-y";
    "-i"; video_path;
    "-i"; audio_path;
    "-c:v"; "copy";
    "-c:a"; "aac";
    "-strict"; "experimental";
    output_path ].

Definition download_and_merge (E : Env) (yt : YT.Video)
  (video_stream audio_stream : Stream) (destino : string) : M unit :=
  let video_path := destino // video_name yt in
  let audio_path := destino // audio_name yt in
  let output_path := destino // output_name E yt video_stream in
  try_except
    (loading_animation E "Baixando vídeo" ;;
     download E video_stream destino (video_name yt) ;;
     loading_animation E "Baixando áudio" ;;
     download E audio_stream destino (audio_name yt) ;;
     print Msg.merging ;;
     subprocess_run E (ffmpeg_cmd video_path audio_path output_path) ;;
     os_remove E video_path ;;
     os_remove E audio_path ;;
     print Msg.success ;;
     print (Msg.saved output_path))
    is_Exception
    (fun e => print (Msg.process_error e) ;; sys_exit 1).

(** ** The run *)

(** ASCII white space, for [str.strip()]. *)
Definition is_space (c : ascii) : bool :=
  let n := nat_of_ascii c in
  ((n =? 32) || ((9 <=? n) && (n <=? 13)) || ((28 <=? n) && (n <=? 31)))%nat.

Fixpoint lstrip (s : string) : string :=
  match s with
  | EmptyString => EmptyString
  | String c rest => if is_space c then lstrip rest else s
  end.

Fixpoint rstrip (s : string) : string :=
  match s with
  | EmptyString => EmptyString
  | String c rest =>
      match rstrip rest with
      | EmptyString => if is_space c then EmptyString else String c EmptyString
      | r => String c r
      end
  end.

Definition strip (s : string) : string := rstrip (lstrip s).

Definition main (E : Env) : M unit :=
  clear_screen ;;
  print_banner ;;
  line <- input Msg.ask_url ;;
  let url := strip line in
  let destino := home E // "Videos" in
  loading_animation E "Obtendo informações do vídeo" ;;
  yt_info <- get_video_info E url ;;
  let yt := fst yt_info in
  display_video_info (snd yt_info) ;;
  let video_streams := video_streams (YT.streams yt) in
  resolucao_escolhida <- select_resolution E video_streams ;;
  let video_stream := resolve_video (YT.streams yt) resolucao_escolhida in
  let audio_stream := resolve_audio (YT.streams yt) in
  match video_stream, audio_stream with
  | Some video_stream, Some audio_stream =>
      download_and_merge E yt video_stream audio_stream destino
  | _, _ =>
      print Msg.streams_not_found ;;
      sys_exit 1
  end.

(** The [__main__] block, lines 213-218. *)
Definition entry (E : Env) : M unit :=
  try_except (main E) is_KeyboardInterrupt
    (fun _ => print Msg.cancelled ;; sys_exit 0).

(** How the interpreter ends: with an exit status, with the traceback of an
    exception nobody caught, or not yet (it waits for the keyboard). *)
Inductive Status :=
| Exit (code : Z)
| Traceback (e : exn)
| Waiting.

Definition status_of (r : Res unit) : Status :=
  match r with
  | Ret _ => Exit 0
  | Raise (SystemExit code) => Exit code
  | Raise e => Traceback e
  | Wait => Waiting
  end.

Definition start (typed : list Key) (on_disk : list string) : World :=
  mkWorld typed on_disk [].

Definition run (E : Env) (typed : list Key) (on_disk : list string)
  : Status * World :=
  let (r, w) := entry E (start typed on_disk) in
  (status_of r, w).

(** ** A concrete environment *)

Module Demo.

(** [int] on ASCII text: optional sign, then digits that single
    underscores may separate; white space around is ignored. *)
Fixpoint digits (s : string) (acc : Z) (after_digit : bool) : option Z :=
  match s with
  | EmptyString => if after_digit then Some acc else None
  | String c rest =>
      let n := nat_of_ascii c in
      if ((48 <=? n) && (n <=? 57))%nat
      then digits rest (10 * acc + Z.of_nat (n - 48))%Z true
      else if Ascii.eqb c "_"%char && after_digit
           then digits rest acc false
           else None
  end.

Definition ascii_int (s : string) : option Z :=
  match strip s with
  | String "-" rest => option_map Z.opp (digits rest 0%Z false)
  | String "+" rest => digits rest 0%Z false
  | t => digits t 0%Z false
  end.

(** Lower case for ASCII letters, the part of the preparation of a slug
    that shows on plain titles. *)
Definition lower (c : ascii) : ascii :=
  let n := nat_of_ascii c in
  if ((65 <=? n) && (n <=? 90))%nat then ascii_of_nat (n + 32) else c.

Definition v1080 : Stream := mkStream 137 VideoOnly "mp4" (Some 1080%N) None.
Definition v720 : Stream := mkStream 136 VideoOnly "mp4" (Some 720%N) None.
Definition v720dup : Stream := mkStream 298 VideoOnly "mp4" (Some 720%N) None.
Definition a128 : Stream := mkStream 140 AudioOnly "mp4" None (Some 128%N).
Definition a256 : Stream := mkStream 141 AudioOnly "mp4" None (Some 256%N).

(** The catalogue of the specification's scenario. *)
Definition catalogue : list Stream := [v1080; v720; v720dup; a128; a256].

Definition video : YT.Video :=
  YT.mkVideo "dQw4w9WgXcQ" "Never Gonna Give You Up" "Rick Astley"
          213 1500000000 "25/10/2009" catalogue.

(** Everything succeeds, and the process prints some diagnostics. *)
Definition env : Env :=
  mkEnv "/home/user" ascii_int (Slug.map_chars lower) (fun _ => inr video)
        (fun _ => false) (fun _ _ => Downloaded)
        (fun _ => Exited 0 "" "frame= 5000 fps=0.0 q=-1.0 size= 20000kB")
        (fun _ => None).

Definition with_catalogue (E : Env) (q : list Stream) : Env :=
  mkEnv (home E) (int_of_str E) (slug_prepare E)
        (fun _ => inr (YT.mkVideo "dQw4w9WgXcQ" "Never Gonna Give You Up"
                               "Rick Astley" 213 1500000000 "25/10/2009" q))
        (spinner_interrupted E) (stream_download E) (ffmpeg E) (unlink E).

Definition with_ffmpeg (E : Env) (outcome : MuxOutcome) : Env :=
  mkEnv (home E) (int_of_str E) (slug_prepare E) (YouTube E)
        (spinner_interrupted E) (stream_download E) (fun _ => outcome)
        (unlink E).

Definition with_unlink (E : Env) (f : string -> option Fault) : Env :=
  mkEnv (home E) (int_of_str E) (slug_prepare E) (YouTube E)
        (spinner_interrupted E) (stream_download E) (ffmpeg E) f.

Definition with_download (E : Env) (f : Stream -> string -> DownloadOutcome)
  : Env :=
  mkEnv (home E) (int_of_str E) (slug_prepare E) (YouTube E)
        (spinner_interrupted E) f (ffmpeg E) (unlink E).

Definition url : Key := Typed "https://youtu.be/dQw4w9WgXcQ".

(** The mux process fails and says why on its standard error. *)
Definition diagnostics : string := "Invalid data found when processing input".
Definition mux_fails : Env := with_ffmpeg env (Exited 1 "" diagnostics).

(** The system refuses every deletion. *)
Definition read_only : Env :=
  with_unlink env
    (fun path =>
       Some (Failed "PermissionError"
               ("[Errno 13] Permission denied: " +++ repr_str path))).

(** The user interrupts the retrieval of the audio, of which a part is
    already on the disk. *)
Definition interrupted_retrieval : Env :=
  with_download env
    (fun stream _ =>
       if only_audio stream then DownloadFault Interrupted true
       else Downloaded).


(** A catalogue without audio, and one without anything. *)
Definition no_audio : Env := with_catalogue env [v1080; v720].
Definition nothing : Env := with_catalogue env [].

End Demo.

(** ** Notions used by the statements *)

(** The resolution labels of a query, in its order. *)
Definition labels (q : list Stream) : list N :=
  flat_map (fun s => match resolution s with Some r => [r] | None => [] end) q.

(** Duplicates removed, the first occurrence of each element kept. *)
Fixpoint keep_first (l : list N) : list N :=
  match l with
  | [] => []
  | x :: l' => x :: filter (fun y => negb (N.eqb y x)) (keep_first l')
  end.

(** Each label is strictly lower than all those before it. *)
Definition strictly_descending (l : list N) : Prop :=
  StronglySorted (fun a b => (b < a)%N) l.

(** The world once the keys before [rest] are read and [evs] has been
    added to the transcript. *)
Definition advance (w : World) (rest : list Key) (evs : list Event) : World :=
  mkWorld rest (disk0 w) (events w ++ evs).

(** The number of times the selection prompt was shown. *)
Definition selection_prompts (evs : list Event) : nat :=
  List.length
    (filter (fun e => match e with
                      | Prompted text => String.eqb text Msg.ask_resolution
                      | _ => false
                      end) evs).

Definition is_print (e : Event) : Prop :=
  match e with Printed _ => True | _ => False end.

(** ** The outcome of [download_and_merge] *)

Definition wrote_if (partial : bool) (path : string) : list Event :=
  if partial then [Wrote path] else [].

(** What the [try]/[except] of [download_and_merge] makes of a fault. *)
Definition fault_outcome (f : Fault) : Res unit * list Event :=
  match f with
  | Interrupted => (Raise KeyboardInterrupt, [Interrupt])
  | Failed cls msg =>
      (Raise (SystemExit 1), [Printed (Msg.process_error (Error cls msg))])
  end.

Definition after (evs : list Event) (o : Res unit * list Event)
  : Res unit * list Event :=
  (fst o, evs ++ snd o).

(** The result of [download_and_merge] and the events it adds, as the
    answers of the environment decide them. *)
Definition merge_outcome (E : Env) (yt : YT.Video)
  (video_stream audio_stream : Stream) (destino : string)
  : Res unit * list Event :=
  let video_path := destino // video_name yt in
  let audio_path := destino // audio_name yt in
  let output_path := destino // output_name E yt video_stream in
  let cmd := ffmpeg_cmd video_path audio_path output_path in
  if spinner_interrupted E "Baixando vídeo"
  then (Raise KeyboardInterrupt, [Interrupt])
  else
    after [Retrieving (itag video_stream) video_path]
    match stream_download E video_stream video_path with
    | DownloadFault f partial =>
        after (wrote_if partial video_path) (fault_outcome f)
    | Downloaded =>
        after [Wrote video_path]
        (if spinner_interrupted E "Baixando áudio"
         then (Raise KeyboardInterrupt, [Interrupt])
         else
           after [Retrieving (itag audio_stream) audio_path]
           match stream_download E audio_stream audio_path with
           | DownloadFault f partial =>
               after (wrote_if partial audio_path) (fault_outcome f)
           | Downloaded =>
               after [Wrote audio_path; Printed Msg.merging; Spawned cmd]
               match ffmpeg E cmd with
               | SpawnFault f => fault_outcome f
               | Exited status stdout stderr =>
                   if (status =? 0)%N then
                     after [Wrote output_path; ProcessExited 0]
                     match unlink E video_path with
                     | Some f => fault_outcome f
                     | None =>
                         after [Deleted video_path]
                         match unlink E audio_path with
                         | Some f => fault_outcome f
                         | None =>
                             (Ret tt,
                              [Deleted audio_path; Printed Msg.success;
                               Printed (Msg.saved output_path)])
                         end
                     end
                   else
                     (Raise (SystemExit 1),
                      [ProcessExited status;
                       Printed (Msg.process_error
                                  (CalledProcessError cmd status
                                     stdout stderr))])
               end
           end)
    end.

(** ** The run in two parts *)

(** [main] up to and including the test of line 205: the video and the two
    descriptors with which [download_and_merge] is called. *)
Definition prepare (E : Env) : M (YT.Video * Stream * Stream) :=
  clear_screen ;;
  print_banner ;;
  line <- input Msg.ask_url ;;
  let url := strip line in
  loading_animation E "Obtendo informações do vídeo" ;;
  yt_info <- get_video_info E url ;;
  let yt := fst yt_info in
  display_video_info (snd yt_info) ;;
  let video_streams := video_streams (YT.streams yt) in
  resolucao_escolhida <- select_resolution E video_streams ;;
  let video_stream := resolve_video (YT.streams yt) resolucao_escolhida in
  let audio_stream := resolve_audio (YT.streams yt) in
  match video_stream, audio_stream with
  | Some video_stream, Some audio_stream =>
      ret (yt, video_stream, audio_stream)
  | _, _ =>
      print Msg.streams_not_found ;;
      sys_exit 1
  end.

(** What the [__main__] block makes of the result of [main]. *)
Definition handled (r : Res unit) : Res unit * list Event :=
  match r with
  | Raise KeyboardInterrupt => (Raise (SystemExit 0), [Printed Msg.cancelled])
  | _ => (r, [])
  end.

(** The events of a run that is still choosing: prompts, the interrupt
    signal, and printed texts other than the two that report the outcome. *)
Definition quiet_event (e : Event) : Prop :=
  match e with
  | Prompted _ | Interrupt => True
  | Printed text => text <> Msg.success /\ text <> Msg.streams_not_found
  | _ => False
  end.

Definition listing_event (e : Event) : Prop := is_print e /\ quiet_event e.

(** The result of [prepare] and the events [evs] it added. *)
Definition prepared (E : Env) (r : Res (YT.Video * Stream * Stream))
  (evs : list Event) : Prop :=
  match r with
  | Ret (yt, video_stream, audio_stream) =>
      Forall quiet_event evs /\ ~ In Interrupt evs
      /\ (exists url, YouTube E url = inr yt)
      /\ resolve_audio (YT.streams yt) = Some audio_stream
      /\ exists resolucao,
           In resolucao (availableResolutions (YT.streams yt))
           /\ resolve_video (YT.streams yt) resolucao = Some video_stream
  | Raise KeyboardInterrupt =>
      exists pre,
        evs = pre ++ [Interrupt] /\ Forall quiet_event pre
        /\ ~ In Interrupt pre
  | Raise EOFError => Forall quiet_event evs /\ ~ In Interrupt evs
  | Raise (SystemExit code) =>
      code = 1%Z
      /\ exists pre text,
           evs = pre ++ [Printed text] /\ Forall quiet_event pre
           /\ ~ In Interrupt pre
           /\ ((exists url cls msg,
                  YouTube E url = inl (Failed cls msg)
                  /\ text = Msg.info_error (Error cls msg))
               \/ (text = Msg.streams_not_found
                   /\ exists url yt resolucao,
                        YouTube E url = inr yt
                        /\ In resolucao (availableResolutions (YT.streams yt))
                        /\ (resolve_video (YT.streams yt) resolucao = None
                            \/ resolve_audio (YT.streams yt) = None)))
  | Raise _ => False
  | Wait => Forall quiet_event evs /\ ~ In Interrupt evs
  end.

(** The result of the selection loop and the events it added. *)
Definition selected (resolucoes : list N) (r : Res N) (evs : list Event)
  : Prop :=
  match r with
  | Ret resolucao =>
      In resolucao resolucoes /\ Forall quiet_event evs
      /\ ~ In Interrupt evs
  | Raise KeyboardInterrupt =>
      exists pre,
        evs = pre ++ [Interrupt] /\ Forall quiet_event pre
        /\ ~ In Interrupt pre
  | Raise EOFError => Forall quiet_event evs /\ ~ In Interrupt evs
  | Raise _ => False
  | Wait => Forall quiet_event evs /\ ~ In Interrupt evs
  end.

(** The status with which a run that reaches [download_and_merge] ends,
    and its events from there on. *)
Definition merge_transcript (E : Env) (yt : YT.Video)
  (video_stream audio_stream : Stream) (destino : string)
  : Status * list Event :=
  let o := merge_outcome E yt video_stream audio_stream destino in
  (status_of (fst (handled (fst o))), snd o ++ snd (handled (fst o))).

(** The events of a run that does not reach the retrieval. *)
Definition tame (e : Event) : Prop :=
  match e with
  | Prompted _ | Interrupt => True
  | Printed text => text <> Msg.success
  | _ => False
  end.

(** The environment in which the mux process says nothing. *)
Definition silenced (E : Env) : Env :=
  mkEnv (home E) (int_of_str E) (slug_prepare E) (YouTube E)
        (spinner_interrupted E) (stream_download E)
        (fun cmd =>
           match ffmpeg E cmd with
           | Exited status _ _ => Exited status "" ""
           | SpawnFault f => SpawnFault f
           end)
        (unlink E).

(** ** Notions used by the further properties *)

(** The lines that the listing prints for the labels [rs], numbered from
    [n + 1]. *)
Fixpoint listing_from (n : nat) (rs : list N) : list Event :=
  match rs with
  | [] => []
  | r :: rest =>
      Printed (Msg.resolution_line (S n) r) :: listing_from (S n) rest
  end.

(** What ends the selection loop on the key [k]: the label it returns or
    the exception it raises, or nothing when [k] is a line that the loop
    rejects. *)
Definition answer (E : Env) (resolucoes : list N) (k : Key)
  : option (Res N) :=
  match k with
  | Typed line =>
      match int_of_str E line with
      | Some i =>
          if ((1 <=? i) && (i <=? Z.of_nat (List.length resolucoes)))%Z
          then option_map Ret (nth_error resolucoes (Z.to_nat (i - 1)))
          else None
      | None => None
      end
  | CtrlC => Some (Raise KeyboardInterrupt)
  | CtrlD => Some (Raise EOFError)
  end.

(** The characters of a file name that stays in its directory: those of a
    slug, the underscore and the dot. *)
Definition name_char (c : ascii) : bool :=
  Slug.allowed c || Ascii.eqb c "_"%char || Ascii.eqb c "."%char.

(** The three criteria of the video query of lines 194-198. *)
Definition video_match (r : N) (s : Stream) : bool :=
  forallb (fun c => c s) [res r; only_video; file_extension "mp4"].

(** The three messages with which a run can fail. *)
Definition failure_text (text : string) : Prop :=
  text = Msg.streams_not_found
  \/ exists e, text = Msg.info_error e \/ text = Msg.process_error e.

(** * Properties *)

(** ** Texts *)

Section TextFacts.

Lemma append_assoc (a b c : string) : (a +++ b) +++ c = a +++ (b +++ c).
Proof. induction a as [|x a IH]; simpl; [reflexivity | now rewrite IH]. Qed.

Lemma append_length (a b : string) :
  String.length (a +++ b) = String.length a + String.length b.
Proof. induction a as [|x a IH]; simpl; [reflexivity | now rewrite IH]. Qed.

Lemma append_inv_head (a x y : string) : a +++ x = a +++ y -> x = y.
Proof.
  induction a as [|c a IH]; simpl; intros H; [exact H|].
  injection H as H. now apply IH.
Qed.

(** Two texts that end in tails of the same length end in the same tail. *)
Lemma append_inv_tail (a b s t : string) :
  String.length s = String.length t -> a +++ s = b +++ t -> s = t.
Proof.
  revert b. induction a as [|c a IH]; intros [|d b] Hlen H; simpl in H.
  - exact H.
  - exfalso. apply (f_equal String.length) in H. simpl in H.
    rewrite append_length in H. lia.
  - exfalso. apply (f_equal String.length) in H. simpl in H.
    rewrite append_length in H. lia.
  - injection H as _ H. now apply (IH b).
Qed.

End TextFacts.

(** ** Catalogue queries *)

Section QueryFacts.

Variable key : Stream -> N.

Let ascending (a b : Stream) : Prop := (key a <= key b)%N.
Let descending (a b : Stream) : Prop := (key b <= key a)%N.

Lemma insert_by_In x y l : In y (insert_by key x l) <-> y = x \/ In y l.
Proof.
  induction l as [|z l IH]; simpl.
  - intuition.
  - destruct (key x <=? key z)%N; simpl; [intuition|].
    rewrite IH. intuition.
Qed.

Lemma sorted_by_In y l : In y (sorted_by key l) <-> In y l.
Proof.
  induction l as [|x l IH]; simpl; [tauto|].
  rewrite insert_by_In, IH. intuition.
Qed.

Lemma insert_by_sorted x l :
  StronglySorted ascending l -> StronglySorted ascending (insert_by key x l).
Proof.
  induction 1 as [|z l Hs IH Hz]; simpl.
  - constructor; constructor.
  - destruct (key x <=? key z)%N eqn:Hle.
    + apply N.leb_le in Hle.
      constructor; [constructor; assumption|].
      constructor; [exact Hle|].
      eapply Forall_impl; [|exact Hz].
      intros b Hb. unfold ascending in *. lia.
    + apply N.leb_gt in Hle.
      constructor; [exact IH|].
      apply Forall_forall. intros b Hb.
      apply insert_by_In in Hb. destruct Hb as [->|Hb].
      * unfold ascending. lia.
      * rewrite Forall_forall in Hz. now apply Hz.
Qed.

Lemma sorted_by_sorted l : StronglySorted ascending (sorted_by key l).
Proof.
  induction l as [|x l IH]; simpl; [constructor|].
  now apply insert_by_sorted.
Qed.

Lemma sorted_snoc (R : Stream -> Stream -> Prop) l x :
  StronglySorted R l -> Forall (fun a => R a x) l ->
  StronglySorted R (l ++ [x]).
Proof.
  induction 1 as [|z l Hs IH Hz]; intros Hall; simpl.
  - constructor; constructor.
  - inversion Hall as [|? ? Hzx Hrest]; subst.
    constructor; [now apply IH|].
    apply Forall_app. split; [exact Hz|]. constructor; [exact Hzx|constructor].
Qed.

Lemma desc_sorted l :
  StronglySorted ascending l -> StronglySorted descending (desc l).
Proof.
  unfold desc. induction 1 as [|z l Hs IH Hz]; simpl; [constructor|].
  apply sorted_snoc; [exact IH|].
  apply Forall_forall. intros b Hb. apply in_rev in Hb.
  rewrite Forall_forall in Hz. now apply Hz.
Qed.

End QueryFacts.

Lemma order_by_In attr s q :
  In s (order_by attr q) <-> In s q /\ has_attribute attr s = true.
Proof.
  unfold order_by. now rewrite sorted_by_In, filter_In.
Qed.

Lemma filter_by_In criteria s q :
  In s (filter_by criteria q)
  <-> In s q /\ forall c, In c criteria -> c s = true.
Proof.
  unfold filter_by. now rewrite filter_In, forallb_forall.
Qed.

(** A query ordered by an attribute and reversed lists the values of the
    attribute from the highest down. *)
Lemma desc_order_by_sorted attr q :
  StronglySorted (fun a b => (attr_key attr b <= attr_key attr a)%N)
    (desc (order_by attr q)).
Proof. apply desc_sorted, sorted_by_sorted. Qed.

(** ** The enumeration of [select_resolution] *)

Lemma mem_N_In x l : mem_N x l = true <-> In x l.
Proof.
  unfold mem_N. rewrite existsb_exists. split.
  - intros [y [Hy Heq]]. apply N.eqb_eq in Heq. now subst.
  - intros H. exists x. split; [exact H | apply N.eqb_refl].
Qed.

Lemma filter_filter {A} (p q : A -> bool) l :
  filter p (filter q l) = filter (fun x => q x && p x) l.
Proof.
  induction l as [|x l IH]; simpl; [reflexivity|].
  destruct (q x); simpl; [destruct (p x)|]; now rewrite IH.
Qed.

(** The loop with its membership test is the removal of duplicates that
    keeps first occurrences, whatever list it starts from. *)
Lemma collect_fold vs acc :
  fold_left collect vs acc
  = acc ++ filter (fun r => negb (mem_N r acc)) (keep_first (labels vs)).
Proof.
  revert acc. induction vs as [|stream rest IH]; intros acc; simpl.
  - now rewrite app_nil_r.
  - rewrite IH. unfold collect.
    destruct (resolution stream) as [r|]; simpl; [|reflexivity].
    destruct (mem_N r acc) eqn:Hmem; simpl.
    + f_equal. rewrite filter_filter. apply filter_ext_in. intros x _.
      destruct (N.eqb_spec x r) as [->|Hne]; simpl; [now rewrite Hmem|reflexivity].
    + rewrite <- app_assoc. simpl. do 2 f_equal.
      rewrite filter_filter. apply filter_ext. intros x.
      unfold mem_N. rewrite existsb_app. simpl. rewrite orb_false_r.
      rewrite negb_orb. apply andb_comm.
Qed.

Lemma resolucoes_of_keep_first vs : resolucoes_of vs = keep_first (labels vs).
Proof.
  unfold resolucoes_of. rewrite collect_fold. simpl.
  induction (keep_first (labels vs)) as [|x l IH]; simpl; [reflexivity|].
  now rewrite IH.
Qed.

Lemma keep_first_In r l : In r (keep_first l) <-> In r l.
Proof.
  induction l as [|x l IH]; simpl; [tauto|].
  rewrite filter_In, IH. destruct (N.eqb_spec r x) as [->|Hne]; simpl.
  - intuition.
  - intuition congruence.
Qed.

Lemma keep_first_NoDup l : NoDup (keep_first l).
Proof.
  induction l as [|x l IH]; simpl; constructor.
  - rewrite filter_In. intros [_ H]. now rewrite N.eqb_refl in H.
  - now apply NoDup_filter.
Qed.

Lemma StronglySorted_filter {A} (R : A -> A -> Prop) (p : A -> bool) l :
  StronglySorted R l -> StronglySorted R (filter p l).
Proof.
  induction 1 as [|x l Hs IH Hx]; simpl; [constructor|].
  destruct (p x); [|exact IH].
  constructor; [exact IH|].
  rewrite Forall_forall in *. intros y Hy. apply filter_In in Hy. now apply Hx.
Qed.

(** Without its duplicates a list that never increases decreases. *)
Lemma keep_first_descending l :
  StronglySorted (fun a b => (b <= a)%N) l ->
  strictly_descending (keep_first l).
Proof.
  unfold strictly_descending.
  induction 1 as [|x l Hs IH Hx]; simpl; constructor.
  - now apply StronglySorted_filter.
  - rewrite Forall_forall in *. intros y Hy. apply filter_In in Hy.
    destruct Hy as [Hy Hne]. rewrite keep_first_In in Hy.
    apply Hx in Hy. apply negb_true_iff, N.eqb_neq in Hne. lia.
Qed.

Lemma labels_In r q :
  In r (labels q) <-> exists s, In s q /\ resolution s = Some r.
Proof.
  unfold labels. rewrite in_flat_map. split.
  - intros [s [Hs Hr]]. exists s. split; [exact Hs|].
    destruct (resolution s) as [r'|]; simpl in Hr; [|contradiction].
    destruct Hr as [->|[]]. reflexivity.
  - intros [s [Hs Hr]]. exists s. split; [exact Hs|]. rewrite Hr. now left.
Qed.

Lemma labels_sorted q :
  StronglySorted
    (fun a b => (attr_key resolution b <= attr_key resolution a)%N) q ->
  StronglySorted (fun a b => (b <= a)%N) (labels q).
Proof.
  induction 1 as [|s q Hs IH Hall]; simpl; [constructor|].
  destruct (resolution s) as [r|] eqn:Hr; simpl; [|exact IH].
  constructor; [exact IH|].
  rewrite Forall_forall in *. intros r' Hr'.
  apply labels_In in Hr'. destruct Hr' as [s' [Hin Hs']].
  specialize (Hall s' Hin). unfold attr_key in Hall.
  now rewrite Hr, Hs' in Hall.
Qed.

(** C1.  For every collection of stream descriptors, the resolutions that
    [select_resolution] lists for the adaptive, video-only, mp4 descriptors
    ordered from the highest resolution down are free of duplicates and
    strictly descending; the list is that of the labels of the ordered
    descriptors with the first occurrence of each label kept, and it holds
    exactly the labels of the descriptors that pass the filter. *)
Theorem availableResolutions_descending_distinct (streams : list Stream) :
  NoDup (availableResolutions streams)
  /\ strictly_descending (availableResolutions streams)
  /\ availableResolutions streams = keep_first (labels (video_streams streams))
  /\ (forall r,
        In r (availableResolutions streams)
        <-> exists s, In s streams /\ adaptive s = true
                      /\ only_video s = true
                      /\ file_extension "mp4" s = true
                      /\ resolution s = Some r).
Proof.
  unfold availableResolutions. rewrite resolucoes_of_keep_first.
  split; [apply keep_first_NoDup|].
  split; [apply keep_first_descending, labels_sorted, desc_order_by_sorted|].
  split; [reflexivity|].
  intros r. rewrite keep_first_In, labels_In. unfold video_streams, desc.
  split.
  - intros [s [Hs Hr]]. exists s.
    apply in_rev, order_by_In in Hs. destruct Hs as [Hs _].
    apply filter_by_In in Hs. destruct Hs as [Hs Hc].
    repeat split; try exact Hs; try exact Hr; apply Hc; simpl; auto.
  - intros [s [Hs [Ha [Hv [He Hr]]]]]. exists s. split; [|exact Hr].
    apply -> in_rev. apply order_by_In. split.
    + apply filter_by_In. split; [exact Hs|].
      intros c [<-|[<-|[<-|[]]]]; assumption.
    + unfold has_attribute. now rewrite Hr.
Qed.

Lemma availableResolutions_scenario :
  availableResolutions Demo.catalogue = [1080%N; 720%N]
  /\ NoDup (availableResolutions Demo.catalogue)
  /\ strictly_descending (availableResolutions Demo.catalogue).
Proof.
  split; [reflexivity|].
  destruct (availableResolutions_descending_distinct Demo.catalogue)
    as [Hnodup [Hdesc _]].
  split; assumption.
Defined.

(** ** The audio descriptor *)

Lemma audio_candidates_In s streams :
  In s (desc (order_by abr (filter_by [only_audio; file_extension "mp4"] streams)))
  <-> In s streams /\ only_audio s = true /\ file_extension "mp4" s = true
      /\ exists k, abr s = Some k.
Proof.
  unfold desc. rewrite <- in_rev, order_by_In, filter_by_In.
  unfold has_attribute. split.
  - intros [[Hs Hc] Ha]. repeat split; try exact Hs; try (apply Hc; simpl; auto).
    destruct (abr s) as [k|]; [now exists k | discriminate].
  - intros [Hs [Ho [He [k Hk]]]]. rewrite Hk. repeat split; try exact Hs.
    intros c [<-|[<-|[]]]; assumption.
Qed.

(** C3.  The audio descriptor that [main] resolves does not depend on the
    resolution that was chosen, and it is an audio-only, mp4 descriptor of
    the collection whose bitrate is the maximum of the bitrates of all such
    descriptors; none is resolved only when no such descriptor has a
    bitrate. *)
Theorem resolve_audio_max_bitrate (streams : list Stream) (r1 r2 : N) :
  snd (resolveDescriptors streams r1) = snd (resolveDescriptors streams r2)
  /\ match resolve_audio streams with
     | Some a =>
         In a streams /\ only_audio a = true /\ file_extension "mp4" a = true
         /\ exists k, abr a = Some k
              /\ forall b k', In b streams -> only_audio b = true ->
                   file_extension "mp4" b = true -> abr b = Some k' ->
                   (k' <= k)%N
     | None =>
         forall b, In b streams -> only_audio b = true ->
           file_extension "mp4" b = true -> abr b = None
     end.
Proof.
  split; [reflexivity|].
  unfold resolve_audio, first.
  pose proof (desc_order_by_sorted abr
                (filter_by [only_audio; file_extension "mp4"] streams)) as Hsorted.
  pose proof (fun s => audio_candidates_In s streams) as Hin.
  destruct (desc (order_by abr
                    (filter_by [only_audio; file_extension "mp4"] streams)))
    as [|a rest]; simpl.
  - intros b Hb Ho He. destruct (abr b) as [k|] eqn:Hk; [|reflexivity].
    exfalso. apply (proj2 (Hin b)). repeat split; try assumption. now exists k.
  - destruct (proj1 (Hin a) (or_introl eq_refl)) as [Ha [Ho [He [k Hk]]]].
    repeat split; try assumption. exists k. split; [exact Hk|].
    intros b k' Hb Hbo Hbe Hbk.
    assert (Hq : In b (a :: rest)).
    { apply Hin. repeat split; try assumption. now exists k'. }
    destruct Hq as [<-|Hq].
    + rewrite Hk in Hbk. injection Hbk as ->. lia.
    + inversion Hsorted as [|? ? _ Hall]; subst.
      rewrite Forall_forall in Hall. specialize (Hall b Hq).
      unfold attr_key in Hall. now rewrite Hk, Hbk in Hall.
Qed.

Lemma resolve_audio_scenario :
  resolve_audio Demo.catalogue = Some Demo.a256
  /\ snd (resolveDescriptors Demo.catalogue 1080)
     = snd (resolveDescriptors Demo.catalogue 720).
Proof.
  split; [reflexivity|].
  exact (proj1 (resolve_audio_max_bitrate Demo.catalogue 1080 720)).
Defined.

(** ** The selection loop *)

Lemma advance_advance w k1 e1 k2 e2 :
  advance (advance w k1 e1) k2 e2 = advance w k2 (e1 ++ e2).
Proof. unfold advance. simpl. now rewrite app_assoc. Qed.

Section SelectionLoop.

Variable E : Env.
Variable resolucoes : list N.

Let in_range (i : Z) : bool :=
  ((1 <=? i) && (i <=? Z.of_nat (List.length resolucoes)))%Z.

(** What one turn does with a typed line. *)
Lemma attempt_typed w line rest :
  keys w = Typed line :: rest ->
  attempt E resolucoes w =
  match int_of_str E line with
  | Some i =>
      if in_range i then
        (Ret (nth_error resolucoes (Z.to_nat (i - 1))),
         advance w rest [Prompted Msg.ask_resolution])
      else
        (Ret None,
         advance w rest [Prompted Msg.ask_resolution;
                         Printed Msg.invalid_option])
  | None =>
      (Ret None,
       advance w rest [Prompted Msg.ask_resolution; Printed Msg.not_a_number])
  end.
Proof.
  destruct w as [ks d evs]. simpl. intros ->.
  unfold attempt, try_except, bind, input, emit, int, advance. simpl.
  destruct (int_of_str E line) as [i|]; simpl.
  - unfold in_range, getitem, ret, raise, print, emit.
    destruct (0 <=? i - 1)%Z eqn:H0; destruct (1 <=? i)%Z eqn:H1;
      try (exfalso; lia); simpl.
    + destruct (i - 1 <? Z.of_nat (List.length resolucoes))%Z eqn:H2;
        destruct (i <=? Z.of_nat (List.length resolucoes))%Z eqn:H3;
        try (exfalso; lia); simpl.
      * destruct (i - 1 <? 0)%Z eqn:H4; [exfalso; lia|]. rewrite H0, H2. simpl.
        destruct (nth_error resolucoes (Z.to_nat (i - 1))) as [r|] eqn:Hn;
          [reflexivity|].
        apply nth_error_None in Hn. exfalso. lia.
      * now rewrite <- app_assoc.
    + now rewrite <- app_assoc.
  - unfold print, emit, ret. simpl. now rewrite <- app_assoc.
Qed.

Lemma attempt_no_key w :
  keys w = [] ->
  attempt E resolucoes w =
  (Wait, advance w [] [Prompted Msg.ask_resolution]).
Proof.
  destruct w as [ks d evs]. simpl. intros ->. reflexivity.
Qed.

Lemma attempt_ctrl_c w rest :
  keys w = CtrlC :: rest ->
  attempt E resolucoes w =
  (Raise KeyboardInterrupt,
   advance w rest [Prompted Msg.ask_resolution; Interrupt]).
Proof.
  destruct w as [ks d evs]. simpl. intros ->.
  unfold attempt, try_except, bind, input, emit, advance. simpl.
  now rewrite <- app_assoc.
Qed.

Lemma attempt_ctrl_d w rest :
  keys w = CtrlD :: rest ->
  attempt E resolucoes w =
  (Raise EOFError, advance w rest [Prompted Msg.ask_resolution]).
Proof.
  destruct w as [ks d evs]. simpl. intros ->. reflexivity.
Qed.

(** The loop, one key at a time. *)
Lemma selection_loop_typed w line rest :
  keys w = Typed line :: rest ->
  selection_loop E resolucoes w =
  match int_of_str E line with
  | Some i =>
      if in_range i then
        match nth_error resolucoes (Z.to_nat (i - 1)) with
        | Some r => (Ret r, advance w rest [Prompted Msg.ask_resolution])
        | None =>
            selection_loop E resolucoes
              (advance w rest [Prompted Msg.ask_resolution])
        end
      else
        selection_loop E resolucoes
          (advance w rest [Prompted Msg.ask_resolution;
                           Printed Msg.invalid_option])
  | None =>
      selection_loop E resolucoes
        (advance w rest [Prompted Msg.ask_resolution;
                         Printed Msg.not_a_number])
  end.
Proof.
  intros Hk. unfold selection_loop at 1. rewrite Hk.
  cbn [List.length while_true]. rewrite (attempt_typed w line rest Hk).
  destruct (int_of_str E line) as [i|]; [destruct (in_range i)|].
  - destruct (nth_error resolucoes (Z.to_nat (i - 1))); reflexivity.
  - reflexivity.
  - reflexivity.
Qed.

Lemma selection_loop_no_key w :
  keys w = [] ->
  selection_loop E resolucoes w =
  (Wait, advance w [] [Prompted Msg.ask_resolution]).
Proof.
  intros Hk. unfold selection_loop. rewrite Hk. cbn [List.length while_true].
  now rewrite (attempt_no_key w Hk).
Qed.

Lemma selection_loop_ctrl_c w rest :
  keys w = CtrlC :: rest ->
  selection_loop E resolucoes w =
  (Raise KeyboardInterrupt,
   advance w rest [Prompted Msg.ask_resolution; Interrupt]).
Proof.
  intros Hk. unfold selection_loop. rewrite Hk. cbn [List.length while_true].
  now rewrite (attempt_ctrl_c w rest Hk).
Qed.

Lemma selection_loop_ctrl_d w rest :
  keys w = CtrlD :: rest ->
  selection_loop E resolucoes w =
  (Raise EOFError, advance w rest [Prompted Msg.ask_resolution]).
Proof.
  intros Hk. unfold selection_loop. rewrite Hk. cbn [List.length while_true].
  now rewrite (attempt_ctrl_d w rest Hk).
Qed.

End SelectionLoop.

(** C2.  For every presented list and every sequence of typed lines: the
    loop never raises; a line that parses as an ordinal [i] with
    [1 <= i <= length] makes it return the label at position [i]; a line
    that parses as an ordinal out of range makes it print a message and
    prompt again; a line that does not parse makes it prompt again too. *)
Theorem select_resolution_ordinal (E : Env) (resolucoes : list N) (w : World)
  (lines : list string) :
  keys w = map Typed lines ->
  (forall e, fst (selection_loop E resolucoes w) <> Raise e)
  /\ match lines with
     | [] =>
         selection_loop E resolucoes w
         = (Wait, advance w [] [Prompted Msg.ask_resolution])
     | line :: rest =>
         match int_of_str E line with
         | Some i =>
             if ((1 <=? i) && (i <=? Z.of_nat (List.length resolucoes)))%Z
             then
               exists r,
                 nth_error resolucoes (Z.to_nat (i - 1)) = Some r
                 /\ selection_loop E resolucoes w
                    = (Ret r, advance w (map Typed rest)
                                [Prompted Msg.ask_resolution])
             else
               selection_loop E resolucoes w
               = selection_loop E resolucoes
                   (advance w (map Typed rest)
                      [Prompted Msg.ask_resolution;
                       Printed Msg.invalid_option])
         | None =>
             selection_loop E resolucoes w
             = selection_loop E resolucoes
                 (advance w (map Typed rest)
                    [Prompted Msg.ask_resolution;
                     Printed Msg.not_a_number])
         end
     end.
Proof.
  intros Hk. split.
  - revert w Hk. induction lines as [|line rest IH]; intros w Hk e.
    + rewrite (selection_loop_no_key E resolucoes w Hk). discriminate.
    + rewrite (selection_loop_typed E resolucoes w line (map Typed rest) Hk).
      destruct (int_of_str E line) as [i|].
      * destruct ((1 <=? i) && (i <=? Z.of_nat (List.length resolucoes)))%Z.
        -- destruct (nth_error resolucoes (Z.to_nat (i - 1))).
           ++ discriminate.
           ++ now apply IH.
        -- now apply IH.
      * now apply IH.
  - destruct lines as [|line rest].
    + now apply selection_loop_no_key.
    + rewrite (selection_loop_typed E resolucoes w line (map Typed rest) Hk).
      destruct (int_of_str E line) as [i|]; [|reflexivity].
      destruct ((1 <=? i) && (i <=? Z.of_nat (List.length resolucoes)))%Z
        eqn:Hrange; [|reflexivity].
      destruct (nth_error resolucoes (Z.to_nat (i - 1))) as [r|] eqn:Hn.
      * exists r. split; reflexivity.
      * exfalso. apply nth_error_None in Hn.
        apply andb_true_iff in Hrange. destruct Hrange as [H1 H2].
        apply Z.leb_le in H1, H2. lia.
Qed.

Lemma select_resolution_ordinal_scenario :
  exists r,
    nth_error [1080%N; 720%N] 1 = Some r
    /\ selection_loop Demo.env [1080%N; 720%N] (start [Typed "2"] [])
       = (Ret r, advance (start [Typed "2"] []) []
                   [Prompted Msg.ask_resolution]).
Proof.
  exact (proj2 (select_resolution_ordinal Demo.env [1080%N; 720%N]
                  (start [Typed "2"] []) ["2"] eq_refl)).
Defined.

(** Whatever the keyboard does, a label the loop returns is one of the
    list. *)
Lemma selection_loop_returns_member E resolucoes w r w' :
  selection_loop E resolucoes w = (Ret r, w') -> In r resolucoes.
Proof.
  remember (keys w) as ks eqn:Hk. symmetry in Hk.
  revert w Hk. induction ks as [|k rest IH]; intros w Hk.
  - rewrite (selection_loop_no_key E resolucoes w Hk). discriminate.
  - destruct k as [line| |].
    + rewrite (selection_loop_typed E resolucoes w line rest Hk).
      destruct (int_of_str E line) as [i|].
      * destruct ((1 <=? i) && (i <=? Z.of_nat (List.length resolucoes)))%Z.
        -- destruct (nth_error resolucoes (Z.to_nat (i - 1))) as [r0|] eqn:Hn.
           ++ intros H. injection H as <- _. eapply nth_error_In, Hn.
           ++ now apply IH.
        -- now apply IH.
      * now apply IH.
    + rewrite (selection_loop_ctrl_c E resolucoes w rest Hk). discriminate.
    + rewrite (selection_loop_ctrl_d E resolucoes w rest Hk). discriminate.
Qed.

(** The listing never fails and reads no key; it leaves the list that
    [collect] builds. *)
Lemma list_resolutions_spec vs acc w :
  exists evs,
    list_resolutions vs acc w
    = (Ret (fold_left collect vs acc), advance w (keys w) evs)
    /\ Forall listing_event evs.
Proof.
  revert acc w. induction vs as [|stream rest IH]; intros acc w.
  - exists []. split; [|constructor].
    destruct w as [ks d evs]. unfold advance. simpl. now rewrite app_nil_r.
  - simpl. unfold collect at 2.
    destruct (resolution stream) as [r|]; [|apply IH].
    destruct (negb (mem_N r acc)); [|apply IH].
    unfold bind, print, emit.
    destruct (IH (acc ++ [r])
                (mkWorld (keys w) (disk0 w)
                   (events w
                    ++ [Printed (Msg.resolution_line
                                   (List.length (acc ++ [r])) r)])))
      as [evs [Heq Hall]].
    exists (Printed (Msg.resolution_line (List.length (acc ++ [r])) r) :: evs).
    split; [|constructor; [repeat split; discriminate | exact Hall]].
    rewrite Heq. unfold advance. simpl. now rewrite <- app_assoc.
Qed.

Lemma select_resolution_unfold E vs w :
  exists evs,
    select_resolution E vs w
    = selection_loop E (resolucoes_of vs) (advance w (keys w) evs)
    /\ Forall listing_event evs.
Proof.
  unfold select_resolution, bind, print, emit.
  destruct (list_resolutions_spec vs []
              (mkWorld (keys w) (disk0 w)
                 (events w ++ [Printed Msg.resolutions_header])))
    as [evs [Heq Hall]].
  exists (Printed Msg.resolutions_header :: evs
          ++ [Printed Msg.resolutions_footer]).
  split.
  - rewrite Heq. unfold advance. simpl.
    now rewrite <- !app_assoc.
  - constructor; [repeat split; discriminate|].
    apply Forall_app. split; [exact Hall|].
    constructor; [repeat split; discriminate|constructor].
Qed.

Lemma selection_prompts_app a b :
  selection_prompts (a ++ b) = selection_prompts a + selection_prompts b.
Proof. unfold selection_prompts. now rewrite filter_app, length_app. Qed.

(** On an empty list every typed line is answered by a new prompt. *)
Lemma selection_loop_empty E lines w :
  keys w = map Typed lines ->
  fst (selection_loop E [] w) = Wait
  /\ keys (snd (selection_loop E [] w)) = []
  /\ selection_prompts (events (snd (selection_loop E [] w)))
     = selection_prompts (events w) + S (List.length lines).
Proof.
  revert w. induction lines as [|line rest IH]; intros w Hk.
  - rewrite (selection_loop_no_key E [] w Hk). simpl.
    rewrite selection_prompts_app. repeat split.
  - rewrite (selection_loop_typed E [] w line (map Typed rest) Hk).
    assert (Hout : forall i, ((1 <=? i) && (i <=? Z.of_nat 0))%Z = false).
    { intros i. apply andb_false_iff.
      destruct (1 <=? i)%Z eqn:H1; [right|now left].
      apply Z.leb_le in H1. apply Z.leb_gt. simpl. lia. }
    simpl List.length.
    destruct (int_of_str E line) as [i|]; [rewrite Hout|];
      match goal with
      | |- context [selection_loop E [] ?w1] =>
          destruct (IH w1 eq_refl) as [H1 [H2 H3]]
      end;
      (split; [exact H1|]); (split; [exact H2|]);
      rewrite H3; simpl events; rewrite selection_prompts_app;
      match goal with
      | |- context [selection_prompts [?a; ?b]] =>
          change (selection_prompts [a; b]) with 1
      end; simpl List.length; lia.
Qed.

(** C10.  [select_resolution] returns only labels of the list it
    presented; an ordinal that is zero or negative is rejected with the
    message for invalid options, not used as an index from the end; and
    when the list is empty it never returns: after any lines typed it has
    prompted once more than there were lines and waits for the next. *)
Theorem select_resolution_returns_listed (E : Env) (vs : list Stream)
  (w : World) :
  (forall r w', select_resolution E vs w = (Ret r, w') ->
                In r (resolucoes_of vs))
  /\ (forall w0 line rest i,
        keys w0 = Typed line :: rest -> int_of_str E line = Some i ->
        (i <= 0)%Z ->
        selection_loop E (resolucoes_of vs) w0
        = selection_loop E (resolucoes_of vs)
            (advance w0 rest [Prompted Msg.ask_resolution;
                              Printed Msg.invalid_option]))
  /\ (resolucoes_of vs = [] ->
      (forall r, fst (select_resolution E vs w) <> Ret r)
      /\ forall lines, keys w = map Typed lines ->
           fst (select_resolution E vs w) = Wait
           /\ keys (snd (select_resolution E vs w)) = []
           /\ selection_prompts (events (snd (select_resolution E vs w)))
              = selection_prompts (events w) + S (List.length lines)).
Proof.
  destruct (select_resolution_unfold E vs w) as [evs [Heq Hprints]].
  split; [|split].
  - intros r w' H. rewrite Heq in H.
    eapply selection_loop_returns_member, H.
  - intros w0 line rest i Hk Hi Hle.
    rewrite (selection_loop_typed E (resolucoes_of vs) w0 line rest Hk), Hi.
    destruct (1 <=? i)%Z eqn:H1; [apply Z.leb_le in H1; lia|]. reflexivity.
  - intros Hempty. rewrite Heq, Hempty. split.
    + intros r Hr.
      destruct (selection_loop E [] (advance w (keys w) evs)) as [res w'] eqn:Hl.
      simpl in Hr. subst res.
      apply selection_loop_returns_member in Hl. exact Hl.
    + intros lines Hk.
      destruct (selection_loop_empty E lines (advance w (keys w) evs) Hk)
        as [H1 [H2 H3]].
      split; [exact H1|]. split; [exact H2|].
      rewrite H3. simpl events. rewrite selection_prompts_app.
      assert (Hz : selection_prompts evs = 0).
      { clear -Hprints. induction Hprints as [|e l He _ IH]; [reflexivity|].
        destruct He as [He _]. destruct e; try contradiction. exact IH. }
      rewrite Hz. lia.
Qed.

Lemma select_resolution_empty_scenario :
  fst (select_resolution Demo.env [] (start [Typed "1"; Typed "0"] [])) = Wait.
Proof.
  exact (proj1 (proj2 (proj2 (proj2
           (select_resolution_returns_listed Demo.env []
              (start [Typed "1"; Typed "0"] []))) eq_refl)
           ["1"; "0"] eq_refl)).
Defined.

(** ** Output naming *)

Section SlugFacts.

Import Slug.

Variable P : ascii -> bool.

Lemma collapse_dashes_all s :
  all_chars P s = true -> all_chars P (collapse_dashes s) = true.
Proof.
  induction s as [|c rest IH]; [reflexivity|].
  intros H. simpl in H. apply andb_true_iff in H. destruct H as [Hc Hrest].
  specialize (IH Hrest). simpl. destruct rest as [|d r].
  - simpl. now rewrite Hc.
  - destruct (is_dash c && is_dash d); [exact IH|].
    change (P c && all_chars P (collapse_dashes (String d r)) = true).
    now rewrite Hc, IH.
Qed.

Lemma lstrip_dashes_all s :
  all_chars P s = true -> all_chars P (lstrip_dashes s) = true.
Proof.
  induction s as [|c rest IH]; [reflexivity|].
  intros H. simpl. destruct (is_dash c); [|exact H].
  simpl in H. apply andb_true_iff in H. now apply IH.
Qed.

Lemma rstrip_dashes_all s :
  all_chars P s = true -> all_chars P (rstrip_dashes s) = true.
Proof.
  induction s as [|c rest IH]; [reflexivity|].
  intros H. simpl in H. apply andb_true_iff in H. destruct H as [Hc Hrest].
  specialize (IH Hrest). simpl.
  destruct (rstrip_dashes rest) as [|d r].
  - destruct (is_dash c); [reflexivity|]. simpl. now rewrite Hc.
  - change (P c && all_chars P (String d r) = true). now rewrite Hc, IH.
Qed.

End SlugFacts.

Lemma replace_disallowed_allowed s :
  Slug.all_chars Slug.allowed (Slug.replace_disallowed s) = true.
Proof.
  induction s as [|c rest IH]; [reflexivity|].
  unfold Slug.replace_disallowed in *. simpl. rewrite IH, andb_true_r.
  destruct (Slug.allowed c) eqn:Hc; [exact Hc | reflexivity].
Qed.

(** Whatever the title and its preparation, the slug is made of letters,
    digits and dashes. *)
Lemma slugify_allowed E text :
  Slug.all_chars Slug.allowed (Slug.slugify E text) = true.
Proof.
  unfold Slug.slugify.
  apply rstrip_dashes_all, lstrip_dashes_all, collapse_dashes_all,
    replace_disallowed_allowed.
Qed.

Lemma path_join_inj directory a b : directory // a = directory // b -> a = b.
Proof.
  unfold path_join. intros H.
  apply append_inv_head in H. simpl in H. now injection H.
Qed.

(** The output name ends in the last character of the resolution label,
    which is not the [o] that ends [video] and [audio]. *)
Lemma output_name_tail E yt video_stream :
  exists a t,
    output_name E yt video_stream = a +++ t
    /\ (t = "p.mp4" \/ t = "e.mp4").
Proof.
  unfold output_name, fmt_resolution, res_text.
  destruct (resolution video_stream) as [h|].
  - exists (Slug.slugify E (YT.title yt) +++ "_" +++ Text.of_N h), "p.mp4".
    split; [|now left]. now rewrite !append_assoc.
  - exists (Slug.slugify E (YT.title yt) +++ "_Non"), "e.mp4".
    split; [|now right]. now rewrite !append_assoc.
Qed.

Lemma output_name_not_temporary E yt video_stream :
  output_name E yt video_stream <> video_name yt
  /\ output_name E yt video_stream <> audio_name yt.
Proof.
  destruct (output_name_tail E yt video_stream) as [a [t [Heq Ht]]].
  rewrite Heq. unfold video_name, audio_name.
  split; intros H.
  - replace (YT.video_id yt +++ "_video.mp4")
      with ((YT.video_id yt +++ "_vide") +++ "o.mp4") in H
      by now rewrite append_assoc.
    apply append_inv_tail in H; destruct Ht; subst t;
      solve [discriminate | reflexivity].
  - replace (YT.video_id yt +++ "_audio.mp4")
      with ((YT.video_id yt +++ "_audi") +++ "o.mp4") in H
      by now rewrite append_assoc.
    apply append_inv_tail in H; destruct Ht; subst t;
      solve [discriminate | reflexivity].
Qed.

(** C9.  The output file name is a function of the slug of the title and of
    the resolution label alone; its slug consists of letters, digits and
    dashes only; and the output path differs from the paths of the two
    temporary artifacts. *)
Theorem output_name_pure_safe_distinct (E : Env) (yt : YT.Video)
  (video_stream : Stream) (destino : string) :
  (forall E' yt' video_stream',
      Slug.slugify E' (YT.title yt') = Slug.slugify E (YT.title yt) ->
      resolution video_stream' = resolution video_stream ->
      output_name E' yt' video_stream' = output_name E yt video_stream)
  /\ Slug.all_chars Slug.allowed (Slug.slugify E (YT.title yt)) = true
  /\ destino // output_name E yt video_stream <> destino // video_name yt
  /\ destino // output_name E yt video_stream <> destino // audio_name yt.
Proof.
  split; [|split; [|split]].
  - intros E' yt' video_stream' Hslug Hres. unfold output_name.
    now rewrite Hslug, Hres.
  - apply slugify_allowed.
  - intros H. apply path_join_inj in H.
    now apply (proj1 (output_name_not_temporary E yt video_stream)).
  - intros H. apply path_join_inj in H.
    now apply (proj2 (output_name_not_temporary E yt video_stream)).
Qed.

Lemma output_name_scenario :
  output_name Demo.env Demo.video Demo.v720 = "never-gonna-give-you-up_720p.mp4"
  /\ "/home/user/Videos" // output_name Demo.env Demo.video Demo.v720
     <> "/home/user/Videos" // video_name Demo.video.
Proof.
  split; [reflexivity|].
  exact (proj1 (proj2 (proj2
           (output_name_pure_safe_distinct Demo.env Demo.video Demo.v720
              "/home/user/Videos")))).
Defined.

(** ** The disk *)

Lemma replay_app evs1 evs2 fs :
  replay (evs1 ++ evs2) fs = replay evs2 (replay evs1 fs).
Proof. unfold replay. apply fold_left_app. Qed.

Lemma files_advance w rest evs :
  files (advance w rest evs) = replay evs (files w).
Proof. unfold files, advance. simpl. apply replay_app. Qed.

Lemma In_wrote p q fs : In p (apply_event fs (Wrote q)) <-> p = q \/ In p fs.
Proof.
  simpl. destruct (existsb (String.eqb q) fs) eqn:Hex.
  - split; [now right|]. intros [->|H]; [|exact H].
    apply existsb_exists in Hex. destruct Hex as [x [Hx Heq]].
    apply String.eqb_eq in Heq. now subst.
  - simpl. intuition.
Qed.

Lemma In_deleted p q fs :
  In p (apply_event fs (Deleted q)) <-> p <> q /\ In p fs.
Proof.
  simpl. rewrite filter_In, negb_true_iff, String.eqb_neq. tauto.
Qed.

Lemma exists_file_In p w : exists_file p w = true <-> In p (files w).
Proof.
  unfold exists_file. rewrite existsb_exists. split.
  - intros [x [Hx Heq]]. apply String.eqb_eq in Heq. now subst.
  - intros H. exists p. split; [exact H | apply String.eqb_refl].
Qed.

Lemma video_path_not_audio_path destino yt :
  destino // video_name yt <> destino // audio_name yt.
Proof.
  intros H. apply path_join_inj in H. unfold video_name, audio_name in H.
  apply append_inv_head in H. discriminate.
Qed.

(** ** The stages of [download_and_merge] *)

Lemma advance_nil w : advance w (keys w) [] = w.
Proof. destruct w as [ks d evs]. unfold advance. simpl. now rewrite app_nil_r. Qed.

Lemma keys_advance w rest evs : keys (advance w rest evs) = rest.
Proof. reflexivity. Qed.

Lemma disk0_advance w rest evs : disk0 (advance w rest evs) = disk0 w.
Proof. reflexivity. Qed.

Lemma events_advance w rest evs : events (advance w rest evs) = events w ++ evs.
Proof. reflexivity. Qed.

Lemma emit_run e w : emit e w = (Ret tt, advance w (keys w) [e]).
Proof. reflexivity. Qed.

Lemma print_run text w : print text w = (Ret tt, advance w (keys w) [Printed text]).
Proof. reflexivity. Qed.

Lemma fault_run {A} f w :
  @fault A f w
  = (Raise (exn_of_fault f),
     advance w (keys w) match f with Interrupted => [Interrupt] | _ => [] end).
Proof. destruct f; simpl; [reflexivity | now rewrite advance_nil]. Qed.

Lemma loading_animation_run E text w :
  loading_animation E text w
  = if spinner_interrupted E text
    then (Raise KeyboardInterrupt, advance w (keys w) [Interrupt])
    else (Ret tt, w).
Proof. unfold loading_animation. now destruct (spinner_interrupted E text). Qed.

Lemma download_run E stream output_path filename w :
  download E stream output_path filename w
  = match stream_download E stream (output_path // filename) with
    | Downloaded =>
        (Ret tt,
         advance w (keys w)
           [Retrieving (itag stream) (output_path // filename);
            Wrote (output_path // filename)])
    | DownloadFault f partial =>
        (Raise (exn_of_fault f),
         advance w (keys w)
           (Retrieving (itag stream) (output_path // filename)
            :: wrote_if partial (output_path // filename)
            ++ match f with Interrupted => [Interrupt] | _ => [] end))
    end.
Proof.
  unfold download, bind. rewrite emit_run.
  destruct (stream_download E stream (output_path // filename))
    as [|f partial].
  - rewrite emit_run, advance_advance. reflexivity.
  - destruct partial; simpl wrote_if.
    + rewrite emit_run, fault_run, !advance_advance. reflexivity.
    + unfold ret. rewrite fault_run, advance_advance. reflexivity.
Qed.

Lemma subprocess_run_run E cmd w :
  subprocess_run E cmd w
  = match ffmpeg E cmd with
    | Exited status stdout stderr =>
        if (status =? 0)%N then
          (Ret tt,
           advance w (keys w)
             [Spawned cmd; Wrote (last cmd ""); ProcessExited status])
        else
          (Raise (CalledProcessError cmd status stdout stderr),
           advance w (keys w) [Spawned cmd; ProcessExited status])
    | SpawnFault f =>
        (Raise (exn_of_fault f),
         advance w (keys w)
           (Spawned cmd :: match f with Interrupted => [Interrupt] | _ => [] end))
    end.
Proof.
  unfold subprocess_run, bind. rewrite emit_run.
  destruct (ffmpeg E cmd) as [status stdout stderr|f].
  - destruct (status =? 0)%N.
    + rewrite !emit_run, !advance_advance. reflexivity.
    + unfold ret, raise. rewrite emit_run, !advance_advance. reflexivity.
  - rewrite fault_run, advance_advance. reflexivity.
Qed.

Lemma os_remove_run E path w :
  In path (files w) ->
  os_remove E path w
  = match unlink E path with
    | None => (Ret tt, advance w (keys w) [Deleted path])
    | Some f =>
        (Raise (exn_of_fault f),
         advance w (keys w) match f with Interrupted => [Interrupt] | _ => [] end)
    end.
Proof.
  intros Hin. unfold os_remove. apply exists_file_In in Hin. rewrite Hin.
  destruct (unlink E path) as [f|]; [apply fault_run | apply emit_run].
Qed.

(** Both sides are worlds whose transcripts differ in bracketing only. *)
Ltac same_world :=
  unfold print, emit, advance, after, ret, raise; simpl;
  rewrite <- ?app_assoc; simpl; rewrite ?app_nil_r;
  reflexivity.

(** [download_and_merge] reads no key, and adds to the transcript what
    [merge_outcome] says. *)
Lemma download_and_merge_outcome E yt video_stream audio_stream destino w :
  download_and_merge E yt video_stream audio_stream destino w
  = (fst (merge_outcome E yt video_stream audio_stream destino),
     advance w (keys w)
       (snd (merge_outcome E yt video_stream audio_stream destino))).
Proof.
  unfold download_and_merge, merge_outcome, try_except, bind, sys_exit.
  rewrite loading_animation_run.
  destruct (spinner_interrupted E "Baixando vídeo"); [reflexivity|].
  rewrite download_run.
  destruct (stream_download E video_stream (destino // video_name yt))
    as [|f partial].
  2:{ destruct f, partial; same_world. }
  rewrite loading_animation_run.
  destruct (spinner_interrupted E "Baixando áudio"); [same_world|].
  rewrite download_run.
  destruct (stream_download E audio_stream (destino // audio_name yt))
    as [|f partial].
  2:{ destruct f, partial; same_world. }
  rewrite print_run, subprocess_run_run, !advance_advance.
  destruct (ffmpeg E _) as [status stdout stderr|f].
  2:{ destruct f; same_world. }
  destruct (status =? 0)%N eqn:Hstatus; [|same_world].
  apply N.eqb_eq in Hstatus. subst status.
  rewrite advance_advance, os_remove_run.
  2:{ rewrite files_advance. unfold replay. simpl fold_left.
      apply In_wrote. right. apply In_wrote. right. apply In_wrote. now left. }
  destruct (unlink E (destino // video_name yt)) as [f|].
  { destruct f; same_world. }
  rewrite advance_advance, os_remove_run.
  2:{ rewrite files_advance. unfold replay. simpl fold_left.
      apply In_deleted. split.
      { intros H. symmetry in H. revert H. apply video_path_not_audio_path. }
      apply In_wrote. right. apply In_wrote. now left. }
  destruct (unlink E (destino // audio_name yt)) as [f|].
  { destruct f; same_world. }
  same_world.
Qed.

(** ** The run in two parts *)

Lemma bind_assoc {A B C} (m : M A) (k : A -> M B) (h : B -> M C) w :
  bind (bind m k) h w = bind m (fun a => bind (k a) h) w.
Proof.
  unfold bind. destruct (m w) as [[a|e|] w']; reflexivity.
Qed.

Lemma bind_ext {A B} (m : M A) (k1 k2 : A -> M B) w :
  (forall a w', k1 a w' = k2 a w') -> bind m k1 w = bind m k2 w.
Proof.
  intros H. unfold bind. destruct (m w) as [[a|e|] w']; auto.
Qed.

Lemma main_split E w :
  main E w
  = bind (prepare E)
      (fun p => download_and_merge E (fst (fst p)) (snd (fst p)) (snd p)
                  (home E // "Videos")) w.
Proof.
  unfold main, prepare.
  repeat (rewrite bind_assoc; apply bind_ext; intros).
  match goal with
  | |- context [resolve_video ?q ?r] =>
      destruct (resolve_video q r); destruct (resolve_audio q); reflexivity
  end.
Qed.

Lemma entry_run E w :
  entry E w
  = (fst (handled (fst (main E w))),
     advance (snd (main E w)) (keys (snd (main E w)))
       (snd (handled (fst (main E w))))).
Proof.
  unfold entry, try_except, handled.
  destruct (main E w) as [[[]|e|] w']; simpl; try now rewrite advance_nil.
  destruct e; simpl; try now rewrite advance_nil.
  reflexivity.
Qed.

(** ** The run before the retrieval *)

Lemma quiet_listing evs : Forall listing_event evs -> Forall quiet_event evs.
Proof. apply Forall_impl. now intros e [_ H]. Qed.

Lemma listing_no_interrupt evs : Forall listing_event evs -> ~ In Interrupt evs.
Proof.
  intros H Hin. rewrite Forall_forall in H. now destruct (H _ Hin) as [[] _].
Qed.

Lemma selected_after resolucoes r e1 evs :
  Forall quiet_event e1 -> ~ In Interrupt e1 ->
  selected resolucoes r evs -> selected resolucoes r (e1 ++ evs).
Proof.
  intros Hq Hi. unfold selected.
  assert (Hplain : Forall quiet_event evs /\ ~ In Interrupt evs ->
                   Forall quiet_event (e1 ++ evs) /\ ~ In Interrupt (e1 ++ evs)).
  { intros [H1 H2]. split; [now apply Forall_app|].
    rewrite in_app_iff. tauto. }
  destruct r as [resolucao|e|]; [| |exact Hplain].
  - intros [Hin H]. split; [exact Hin | now apply Hplain].
  - destruct e; try exact Hplain; try tauto.
    intros [pre [-> [H1 H2]]]. exists (e1 ++ pre).
    split; [now rewrite app_assoc|]. split; [now apply Forall_app|].
    rewrite in_app_iff. tauto.
Qed.

Lemma selection_loop_spec E resolucoes w :
  exists rest evs,
    snd (selection_loop E resolucoes w) = advance w rest evs
    /\ selected resolucoes (fst (selection_loop E resolucoes w)) evs.
Proof.
  remember (keys w) as ks eqn:Hk. symmetry in Hk.
  revert w Hk. induction ks as [|k rest IH]; intros w Hk.
  - rewrite (selection_loop_no_key E resolucoes w Hk).
    exists [], [Prompted Msg.ask_resolution]. split; [reflexivity|]. simpl.
    split; [repeat constructor | intros [H|[]]; discriminate].
  - assert (Hnext : forall e1,
               Forall quiet_event e1 -> ~ In Interrupt e1 ->
               exists rest' evs,
                 snd (selection_loop E resolucoes (advance w rest e1))
                 = advance w rest' evs
                 /\ selected resolucoes
                      (fst (selection_loop E resolucoes (advance w rest e1)))
                      evs).
    { intros e1 Hq Hi.
      destruct (IH (advance w rest e1) eq_refl) as [rest' [evs [Hw Hsel]]].
      exists rest', (e1 ++ evs). rewrite Hw, advance_advance.
      split; [reflexivity | now apply selected_after]. }
    assert (Hprompt : Forall quiet_event [Prompted Msg.ask_resolution]
                      /\ ~ In Interrupt [Prompted Msg.ask_resolution]).
    { split; [repeat constructor | intros [H|[]]; discriminate]. }
    assert (Hsay : forall text,
               text <> Msg.success -> text <> Msg.streams_not_found ->
               Forall quiet_event [Prompted Msg.ask_resolution; Printed text]
               /\ ~ In Interrupt [Prompted Msg.ask_resolution; Printed text]).
    { intros text H1 H2. split.
      - constructor; [exact I|]. constructor; [now split | constructor].
      - intros [H|[H|[]]]; discriminate. }
    destruct k as [line| |].
    + rewrite (selection_loop_typed E resolucoes w line rest Hk).
      destruct (int_of_str E line) as [i|].
      * destruct ((1 <=? i) && (i <=? Z.of_nat (List.length resolucoes)))%Z.
        -- destruct (nth_error resolucoes (Z.to_nat (i - 1))) as [r|] eqn:Hn.
           ++ exists rest, [Prompted Msg.ask_resolution].
              split; [reflexivity|]. simpl.
              split; [eapply nth_error_In, Hn | exact Hprompt].
           ++ now apply Hnext.
        -- apply Hnext; apply Hsay; discriminate.
      * apply Hnext; apply Hsay; discriminate.
    + rewrite (selection_loop_ctrl_c E resolucoes w rest Hk).
      exists rest, [Prompted Msg.ask_resolution; Interrupt].
      split; [reflexivity|]. simpl. exists [Prompted Msg.ask_resolution].
      split; [reflexivity | exact Hprompt].
    + rewrite (selection_loop_ctrl_d E resolucoes w rest Hk).
      exists rest, [Prompted Msg.ask_resolution].
      split; [reflexivity | exact Hprompt].
Qed.

Lemma select_resolution_spec E vs w :
  exists rest evs,
    snd (select_resolution E vs w) = advance w rest evs
    /\ selected (resolucoes_of vs) (fst (select_resolution E vs w)) evs.
Proof.
  destruct (select_resolution_unfold E vs w) as [e1 [Heq Hlist]].
  rewrite Heq.
  destruct (selection_loop_spec E (resolucoes_of vs) (advance w (keys w) e1))
    as [rest [evs [Hw Hsel]]].
  exists rest, (e1 ++ evs). rewrite Hw, advance_advance.
  split; [reflexivity|].
  apply selected_after;
    [now apply quiet_listing | now apply listing_no_interrupt | exact Hsel].
Qed.

Lemma input_run prompt w :
  input prompt w
  = match keys w with
    | [] => (Wait, advance w [] [Prompted prompt])
    | Typed line :: rest => (Ret line, advance w rest [Prompted prompt])
    | CtrlC :: rest =>
        (Raise KeyboardInterrupt, advance w rest [Prompted prompt; Interrupt])
    | CtrlD :: rest => (Raise EOFError, advance w rest [Prompted prompt])
    end.
Proof.
  destruct w as [ks d evs]. unfold input, bind, emit, advance. simpl.
  destruct ks as [|[line| |] rest]; simpl; try reflexivity.
  unfold bind, emit, raise. simpl. now rewrite <- app_assoc.
Qed.

Lemma get_video_info_run E url w :
  get_video_info E url w
  = match YouTube E url with
    | inr yt =>
        (Ret (yt,
              mkInfo (YT.title yt) (YT.author yt)
                (Text.of_N (YT.length yt / 60) +++ ":"
                   +++ pad2 (YT.length yt mod 60))
                (commas (Text.of_N (YT.views yt)))
                (YT.publish_date yt)),
         w)
    | inl Interrupted =>
        (Raise KeyboardInterrupt, advance w (keys w) [Interrupt])
    | inl (Failed cls msg) =>
        (Raise (SystemExit 1),
         advance w (keys w) [Printed (Msg.info_error (Error cls msg))])
    end.
Proof.
  unfold get_video_info, try_except.
  destruct (YouTube E url) as [[|cls msg]|yt]; reflexivity.
Qed.

Lemma display_video_info_run info w :
  exists evs,
    display_video_info info w = (Ret tt, advance w (keys w) evs)
    /\ Forall listing_event evs.
Proof.
  eexists. split.
  - unfold display_video_info, bind. rewrite !print_run, !advance_advance.
    simpl app. reflexivity.
  - repeat (constructor; [repeat split; discriminate|]). constructor.
Qed.

Lemma prepared_after E r e1 evs :
  Forall quiet_event e1 -> ~ In Interrupt e1 ->
  prepared E r evs -> prepared E r (e1 ++ evs).
Proof.
  intros Hq Hi. unfold prepared.
  assert (Hplain : Forall quiet_event evs /\ ~ In Interrupt evs ->
                   Forall quiet_event (e1 ++ evs) /\ ~ In Interrupt (e1 ++ evs)).
  { intros [H1 H2]. split; [now apply Forall_app|].
    rewrite in_app_iff. tauto. }
  destruct r as [[[yt v] a]|e|]; [| |exact Hplain].
  - intros [H1 [H2 H]]. destruct (Hplain (conj H1 H2)) as [H1' H2'].
    split; [exact H1'|]. split; [exact H2' | exact H].
  - destruct e; try exact Hplain; try tauto.
    + intros [pre [-> [H1 H2]]]. exists (e1 ++ pre).
      split; [now rewrite app_assoc|]. split; [now apply Forall_app|].
      rewrite in_app_iff. tauto.
    + intros [Hcode [pre [text [-> [H1 [H2 H]]]]]]. split; [exact Hcode|].
      exists (e1 ++ pre), text.
      split; [now rewrite app_assoc|]. split; [now apply Forall_app|].
      split; [rewrite in_app_iff; tauto | exact H].
Qed.

(** From the listing of the resolutions to the test of line 205. *)
Lemma choose_spec E url yt w :
  YouTube E url = inr yt ->
  exists rest evs r,
    (resolucao_escolhida <- select_resolution E (video_streams (YT.streams yt)) ;;
     match resolve_video (YT.streams yt) resolucao_escolhida,
           resolve_audio (YT.streams yt) with
     | Some video_stream, Some audio_stream =>
         ret (yt, video_stream, audio_stream)
     | _, _ => print Msg.streams_not_found ;; sys_exit 1
     end) w = (r, advance w rest evs)
    /\ prepared E r evs.
Proof.
  intros Hyt. unfold bind.
  destruct (select_resolution_spec E (video_streams (YT.streams yt)) w)
    as [rest [evs [Hw Hsel]]].
  destruct (select_resolution E (video_streams (YT.streams yt)) w)
    as [[r|e|] w1]; simpl in Hw, Hsel; subst w1.
  - destruct Hsel as [Hin [Hq Hi]].
    assert (Hmissing :
              resolve_video (YT.streams yt) r = None
              \/ resolve_audio (YT.streams yt) = None ->
              prepared E (Raise (SystemExit 1))
                (evs ++ [Printed Msg.streams_not_found])).
    { intros Hnone. split; [reflexivity|].
      exists evs, Msg.streams_not_found. repeat split; try assumption.
      right. split; [reflexivity|]. exists url, yt, r. now repeat split. }
    destruct (resolve_video (YT.streams yt) r) as [v|] eqn:Hv;
      [destruct (resolve_audio (YT.streams yt)) as [a|] eqn:Ha|].
    + exists rest, evs, (Ret (yt, v, a)). split; [reflexivity|]. simpl.
      repeat split; try assumption; [now exists url|].
      exists r. now split.
    + exists rest, (evs ++ [Printed Msg.streams_not_found]),
             (Raise (SystemExit 1)).
      split; [now rewrite print_run, advance_advance|].
      apply Hmissing. now right.
    + exists rest, (evs ++ [Printed Msg.streams_not_found]),
             (Raise (SystemExit 1)).
      split; [now rewrite print_run, advance_advance|].
      apply Hmissing. now left.
  - exists rest, evs, (Raise e). split; [reflexivity|]. simpl.
    destruct e; simpl in Hsel; try contradiction; exact Hsel.
  - exists rest, evs, Wait. split; [reflexivity | exact Hsel].
Qed.

Lemma prepare_spec E w :
  exists rest evs r,
    prepare E w = (r, advance w rest evs) /\ prepared E r evs.
Proof.
  unfold prepare, clear_screen, print_banner.
  unfold bind at 1. unfold ret at 1. unfold bind at 1. rewrite print_run.
  unfold bind at 1. rewrite input_run, keys_advance.
  assert (Hbanner : forall tail,
            Forall quiet_event tail -> ~ In Interrupt tail ->
            Forall quiet_event
              (Printed Msg.banner :: Prompted Msg.ask_url :: tail)
            /\ ~ In Interrupt
                 (Printed Msg.banner :: Prompted Msg.ask_url :: tail)).
  { intros tail Hq Hi. split.
    - constructor; [split; discriminate|]. constructor; [exact I | exact Hq].
    - intros [H|[H|H]]; [discriminate | discriminate | tauto]. }
  destruct (Hbanner [] (Forall_nil _) (fun H => H)) as [Hq0 Hi0].
  assert (Hstop : prepared E (Raise KeyboardInterrupt)
                    [Printed Msg.banner; Prompted Msg.ask_url; Interrupt]).
  { exists [Printed Msg.banner; Prompted Msg.ask_url].
    split; [reflexivity | now split]. }
  destruct (keys w) as [|[line| |] rest].
  - exists [], [Printed Msg.banner; Prompted Msg.ask_url], Wait.
    rewrite advance_advance. split; [reflexivity | now split].
  - rewrite advance_advance. simpl app.
    unfold bind at 1. rewrite loading_animation_run.
    destruct (spinner_interrupted E "Obtendo informações do vídeo").
    { exists rest, [Printed Msg.banner; Prompted Msg.ask_url; Interrupt],
             (Raise KeyboardInterrupt).
      rewrite advance_advance. split; [reflexivity | exact Hstop]. }
    unfold bind at 1. rewrite get_video_info_run.
    destruct (YouTube E (strip line)) as [[|cls msg]|yt] eqn:Hyt.
    + exists rest, [Printed Msg.banner; Prompted Msg.ask_url; Interrupt],
             (Raise KeyboardInterrupt).
      rewrite advance_advance. split; [reflexivity | exact Hstop].
    + exists rest, [Printed Msg.banner; Prompted Msg.ask_url;
                    Printed (Msg.info_error (Error cls msg))],
             (Raise (SystemExit 1)).
      rewrite advance_advance. split; [reflexivity|].
      split; [reflexivity|].
      exists [Printed Msg.banner; Prompted Msg.ask_url],
             (Msg.info_error (Error cls msg)).
      repeat split; try assumption. left. now exists (strip line), cls, msg.
    + cbn [fst snd]. unfold bind at 1.
      match goal with
      | |- context [display_video_info ?info ?w1] =>
          destruct (display_video_info_run info w1) as [e1 [Hd Hlist]];
          rewrite Hd
      end.
      rewrite advance_advance, keys_advance. simpl app.
      destruct (choose_spec E (strip line) yt
                  (advance w rest
                     (Printed Msg.banner :: Prompted Msg.ask_url :: e1)) Hyt)
        as [rest' [evs [r [Hm Hp]]]].
      exists rest', ((Printed Msg.banner :: Prompted Msg.ask_url :: e1) ++ evs), r.
      split.
      * etransitivity; [exact Hm | now rewrite advance_advance].
      * apply prepared_after; [| |exact Hp];
          apply (Hbanner e1);
          solve [now apply quiet_listing | now apply listing_no_interrupt].
  - exists rest, [Printed Msg.banner; Prompted Msg.ask_url; Interrupt],
           (Raise KeyboardInterrupt).
    rewrite advance_advance. split; [reflexivity | exact Hstop].
  - exists rest, [Printed Msg.banner; Prompted Msg.ask_url], (Raise EOFError).
    rewrite advance_advance. split; [reflexivity | now split].
Qed.

(** ** The whole run *)

(** A run is the preparation, followed when it returns by the transcript
    of [download_and_merge], followed by what the [__main__] block adds. *)
Lemma run_shape E typed on_disk :
  exists rest evs r,
    prepared E r evs
    /\ run E typed on_disk
       = match r with
         | Ret (yt, video_stream, audio_stream) =>
             let o := merge_outcome E yt video_stream audio_stream
                        (home E // "Videos") in
             (status_of (fst (handled (fst o))),
              mkWorld rest on_disk (evs ++ snd o ++ snd (handled (fst o))))
         | Raise e =>
             (status_of (fst (handled (Raise e))),
              mkWorld rest on_disk (evs ++ snd (handled (Raise e))))
         | Wait => (Waiting, mkWorld rest on_disk evs)
         end.
Proof.
  destruct (prepare_spec E (start typed on_disk)) as [rest [evs [r [Hp Hr]]]].
  exists rest, evs, r. split; [exact Hr|].
  unfold run. rewrite entry_run, main_split. unfold bind. rewrite Hp.
  destruct r as [[[yt v] a]|e|].
  - cbn [fst snd]. rewrite download_and_merge_outcome. cbn [fst snd].
    rewrite !advance_advance. unfold advance, start. simpl.
    reflexivity.
  - cbn [fst snd]. unfold advance, start. simpl. reflexivity.
  - cbn [fst snd handled]. unfold advance, start. simpl.
    now rewrite app_nil_r.
Qed.

(** All the ways [download_and_merge] can go. *)
Ltac merge_cases :=
  unfold merge_outcome, after, fault_outcome, wrote_if;
  repeat match goal with
         | |- context [if ?x then _ else _] => destruct x eqn:?
         | |- context [match ?x with _ => _ end] => destruct x eqn:?
         end;
  cbn [fst snd app handled status_of].

Lemma merge_outcome_result E yt v a destino :
  let o := merge_outcome E yt v a destino in
  (fst o = Ret tt /\ ~ In Interrupt (snd o))
  \/ (fst o = Raise (SystemExit 1) /\ ~ In Interrupt (snd o))
  \/ (fst o = Raise KeyboardInterrupt
      /\ exists pre, snd o = pre ++ [Interrupt] /\ ~ In Interrupt pre).
Proof.
  cbv zeta. merge_cases;
    try (left; split; [reflexivity|]; simpl; intuition discriminate);
    try (right; left; split; [reflexivity|]; simpl; intuition discriminate);
    right; right; (split; [reflexivity|]);
    match goal with
    | |- exists pre, ?l = _ /\ _ =>
        exists (removelast l); split; [reflexivity|];
        simpl; intuition discriminate
    end.
Qed.

Lemma run_disk0 E typed on_disk : disk0 (snd (run E typed on_disk)) = on_disk.
Proof.
  destruct (run_shape E typed on_disk) as [rest [evs [r [_ Hrun]]]].
  rewrite Hrun. now destruct r as [[[yt v] a]|e|].
Qed.

(** C8.  In every run in which the interrupt signal is delivered, whatever
    the call it arrives in, the process ends with exit status 0 and not
    with a traceback; the signal is followed by the cancellation message
    and by nothing else, so the files are those present when it arrived. *)
Theorem interrupt_exits_zero (E : Env) (typed : list Key)
  (on_disk : list string) :
  In Interrupt (events (snd (run E typed on_disk))) ->
  fst (run E typed on_disk) = Exit 0
  /\ exists pre,
       events (snd (run E typed on_disk))
       = pre ++ [Interrupt; Printed Msg.cancelled]
       /\ ~ In Interrupt pre
       /\ files (snd (run E typed on_disk)) = replay pre on_disk.
Proof.
  destruct (run_shape E typed on_disk) as [rest [evs [r [Hprep Hrun]]]].
  rewrite Hrun. clear Hrun.
  assert (Hdone : forall pre,
            ~ In Interrupt pre ->
            exists pre0,
              (pre ++ [Interrupt]) ++ [Printed Msg.cancelled]
              = pre0 ++ [Interrupt; Printed Msg.cancelled]
              /\ ~ In Interrupt pre0
              /\ replay ((pre ++ [Interrupt]) ++ [Printed Msg.cancelled])
                   on_disk
                 = replay pre0 on_disk).
  { intros pre Hpre. exists pre. rewrite <- app_assoc. simpl.
    split; [reflexivity|]. split; [exact Hpre|].
    now rewrite replay_app. }
  destruct r as [[[yt v] a]|e|].
  - destruct Hprep as [_ [Hi _]]. cbv zeta.
    destruct (merge_outcome_result E yt v a (home E // "Videos"))
      as [[Hr Hn]|[[Hr Hn]|[Hr [pre [Hev Hn]]]]];
      rewrite Hr; cbn [fst snd handled status_of events].
    + rewrite app_nil_r, in_app_iff. tauto.
    + rewrite app_nil_r, in_app_iff. tauto.
    + intros _. split; [reflexivity|]. rewrite Hev.
      destruct (Hdone (evs ++ pre)) as [pre0 [H1 [H2 H3]]].
      { rewrite in_app_iff. tauto. }
      exists pre0. unfold files. cbn [events disk0].
      rewrite app_assoc, (app_assoc evs pre). now repeat split.
  - destruct e; cbn [prepared] in Hprep; try contradiction;
      cbn [fst snd handled status_of events].
    + destruct Hprep as [pre [-> [_ Hn]]]. intros _. split; [reflexivity|].
      destruct (Hdone pre Hn) as [pre0 [H1 [H2 H3]]].
      exists pre0. unfold files. cbn [events disk0]. now repeat split.
    + destruct Hprep as [_ [pre [text [-> [_ [Hn _]]]]]].
      rewrite app_nil_r, in_app_iff. simpl. intuition discriminate.
    + rewrite app_nil_r. intros H. now destruct Hprep as [_ Hn].
  - cbn [fst snd events]. intros H. now destruct Hprep as [_ Hn].
Qed.

Lemma quiet_tame evs : Forall quiet_event evs -> Forall tame evs.
Proof.
  apply Forall_impl. intros [text| | | | | | |]; simpl; tauto.
Qed.

Lemma replay_tame evs fs : Forall tame evs -> replay evs fs = fs.
Proof.
  induction 1 as [|e evs He _ IH]; [reflexivity|].
  destruct e; try contradiction; exact IH.
Qed.

(** A run either stays tame, or reaches [download_and_merge] after a quiet
    preparation in which the video was fetched and the two descriptors
    were resolved. *)
Lemma run_cases E typed on_disk :
  Forall tame (events (snd (run E typed on_disk)))
  \/ exists rest evs yt video_stream audio_stream,
       Forall quiet_event evs /\ ~ In Interrupt evs
       /\ (exists url, YouTube E url = inr yt)
       /\ run E typed on_disk
          = (fst (merge_transcript E yt video_stream audio_stream
                    (home E // "Videos")),
             mkWorld rest on_disk
               (evs ++ snd (merge_transcript E yt video_stream audio_stream
                              (home E // "Videos")))).
Proof.
  destruct (run_shape E typed on_disk) as [rest [evs [r [Hprep Hrun]]]].
  rewrite Hrun. clear Hrun. destruct r as [[[yt v] a]|e|].
  - right. destruct Hprep as [Hq [Hi [Hurl _]]].
    exists rest, evs, yt, v, a.
    split; [exact Hq|]. split; [exact Hi|]. split; [exact Hurl|]. reflexivity.
  - left. cbn [snd events].
    destruct e; cbn [prepared] in Hprep; try contradiction; cbn [handled snd].
    + destruct Hprep as [pre [-> [Hq _]]].
      rewrite <- app_assoc. apply Forall_app. split; [now apply quiet_tame|].
      repeat constructor. discriminate.
    + destruct Hprep as [_ [pre [text [-> [Hq [_ Htext]]]]]].
      rewrite app_nil_r. apply Forall_app. split; [now apply quiet_tame|].
      constructor; [|constructor].
      destruct Htext as [[url [cls [msg [_ ->]]]]|[-> _]]; discriminate.
    + rewrite app_nil_r. apply quiet_tame. now destruct Hprep.
  - left. cbn [snd events]. apply quiet_tame. now destruct Hprep.
Qed.

(** As [run_cases], with the descriptors that the preparation resolved. *)
Lemma run_cases_resolved E typed on_disk :
  Forall tame (events (snd (run E typed on_disk)))
  \/ exists rest evs yt video_stream audio_stream,
       Forall quiet_event evs /\ ~ In Interrupt evs
       /\ (exists url, YouTube E url = inr yt)
       /\ resolve_audio (YT.streams yt) = Some audio_stream
       /\ (exists r,
             In r (availableResolutions (YT.streams yt))
             /\ resolve_video (YT.streams yt) r = Some video_stream)
       /\ run E typed on_disk
          = (fst (merge_transcript E yt video_stream audio_stream
                    (home E // "Videos")),
             mkWorld rest on_disk
               (evs ++ snd (merge_transcript E yt video_stream audio_stream
                              (home E // "Videos")))).
Proof.
  destruct (run_cases E typed on_disk) as [Htame|_]; [now left|].
  destruct (run_shape E typed on_disk) as [rest [evs [r [Hprep Hrun]]]].
  destruct r as [[[yt v] a]|e|].
  - right. destruct Hprep as [Hq [Hi [Hurl [Ha Hv]]]].
    exists rest, evs, yt, v, a. rewrite Hrun. now repeat split.
  - left. rewrite Hrun. cbn [snd events].
    destruct e; cbn [prepared] in Hprep; try contradiction; cbn [handled snd].
    + destruct Hprep as [pre [-> [Hq _]]].
      rewrite <- app_assoc. apply Forall_app. split; [now apply quiet_tame|].
      repeat constructor. discriminate.
    + destruct Hprep as [_ [pre [text [-> [Hq [_ Htext]]]]]].
      rewrite app_nil_r. apply Forall_app. split; [now apply quiet_tame|].
      constructor; [|constructor].
      destruct Htext as [[url [cls [msg [_ ->]]]]|[-> _]]; discriminate.
    + rewrite app_nil_r. apply quiet_tame. now destruct Hprep.
  - left. rewrite Hrun. cbn [snd events]. apply quiet_tame.
    now destruct Hprep.
Qed.

(** ** From the retrieval on *)

Section MergeTranscript.

Variables (E : Env) (yt : YT.Video) (video_stream audio_stream : Stream).
Variable destino : string.

Let video_path := destino // video_name yt.
Let audio_path := destino // audio_name yt.
Let output_path := destino // output_name E yt video_stream.
Let cmd := ffmpeg_cmd video_path audio_path output_path.
Let T := merge_transcript E yt video_stream audio_stream destino.

Ltac transcript_cases :=
  subst T video_path audio_path output_path cmd;
  unfold merge_transcript; merge_cases.

(** Success is reported at the end of one transcript only. *)
Lemma success_transcript :
  In (Printed Msg.success) (snd T) ->
  T = (Exit 0,
       [Retrieving (itag video_stream) video_path; Wrote video_path;
        Retrieving (itag audio_stream) audio_path; Wrote audio_path;
        Printed Msg.merging; Spawned cmd; Wrote output_path; ProcessExited 0;
        Deleted video_path; Deleted audio_path;
        Printed Msg.success; Printed (Msg.saved output_path)]).
Proof.
  transcript_cases; intros H; try reflexivity; exfalso;
    simpl in H; intuition discriminate.
Qed.

Lemma no_mux_no_deletion :
  ~ In (ProcessExited 0) (snd T) -> forall p, ~ In (Deleted p) (snd T).
Proof.
  transcript_cases; intros H p Hp; simpl in H, Hp;
    repeat match goal with
           | H : (_ =? 0)%N = true |- _ => apply N.eqb_eq in H; subst
           end;
    intuition discriminate.
Qed.

Lemma mux_and_deletions_succeed :
  In (ProcessExited 0) (snd T) ->
  unlink E video_path = None -> unlink E audio_path = None ->
  In (Printed Msg.success) (snd T).
Proof.
  transcript_cases; intros H Hv Ha; simpl in H |- *;
    try congruence; try tauto;
    repeat match goal with
           | H : (_ =? 0)%N = false |- _ => apply N.eqb_neq in H
           end;
    intuition (try discriminate; try congruence).
Qed.

End MergeTranscript.

(** ** Files and transcripts *)

Lemma replay_cons e evs fs : replay (e :: evs) fs = replay evs (apply_event fs e).
Proof. reflexivity. Qed.

(** A file that is not deleted is there if it was there or was written. *)
Lemma replay_no_deletion evs fs p :
  ~ In (Deleted p) evs ->
  In p fs \/ In (Wrote p) evs -> In p (replay evs fs).
Proof.
  revert fs. induction evs as [|e evs IH]; intros fs Hnone Hin.
  - simpl. destruct Hin as [H|[]]. exact H.
  - rewrite replay_cons. apply IH.
    + intros Hq. apply Hnone. now right.
    + destruct Hin as [Hfs|[He|Hevs]]; [| |now right].
      * left. destruct e; try exact Hfs.
        -- apply In_wrote. now right.
        -- apply In_deleted. split; [|exact Hfs].
           intros ->. apply Hnone. now left.
      * left. subst e. apply In_wrote. now left.
Qed.

(** What is deleted and not written again is not there. *)
Lemma replay_absent tail fs p :
  ~ In p fs -> ~ In (Wrote p) tail -> ~ In p (replay tail fs).
Proof.
  revert fs. induction tail as [|e tail IH]; intros fs Hfs Htail.
  - exact Hfs.
  - rewrite replay_cons. apply IH.
    + destruct e; try exact Hfs.
      * rewrite In_wrote. intros [->|H]; [|tauto].
        apply Htail. now left.
      * rewrite In_deleted. tauto.
    + intros H. apply Htail. now right.
Qed.

Lemma replay_deleted pre tail fs p :
  ~ In (Wrote p) tail -> ~ In p (replay (pre ++ Deleted p :: tail) fs).
Proof.
  intros Htail. rewrite replay_app, replay_cons.
  apply replay_absent; [|exact Htail].
  rewrite In_deleted. tauto.
Qed.

Lemma tame_in e evs : Forall tame evs -> In e evs -> tame e.
Proof. intros H. rewrite Forall_forall in H. apply H. Qed.

Lemma quiet_in e evs : Forall quiet_event evs -> In e evs -> tame e.
Proof. intros H. apply tame_in, quiet_tame, H. Qed.

(** C5.  In every run that reports success, the two temporary artifacts
    written by the retrievals are deleted after the mux process has exited
    with status 0 and before the report, they are absent from the disk at
    the end, and the exit status is 0; a run in which the mux process
    succeeds and the system allows deletions does report success.  In every
    run in which the mux process has not succeeded, nothing is deleted:
    every file that was on the disk or was written is still there. *)
Theorem temporaries_deleted_on_success_only (E : Env) (typed : list Key)
  (on_disk : list string) :
  let st := fst (run E typed on_disk) in
  let w := snd (run E typed on_disk) in
  (In (Printed Msg.success) (events w) ->
   st = Exit 0
   /\ exists pre yt output_path,
        let video_path := home E // "Videos" // video_name yt in
        let audio_path := home E // "Videos" // audio_name yt in
        events w
        = pre ++ [Deleted video_path; Deleted audio_path;
                  Printed Msg.success; Printed (Msg.saved output_path)]
        /\ In (Wrote video_path) pre /\ In (Wrote audio_path) pre
        /\ In (ProcessExited 0) pre
        /\ ~ In video_path (files w) /\ ~ In audio_path (files w))
  /\ (In (ProcessExited 0) (events w) ->
      (forall p, unlink E p = None) ->
      In (Printed Msg.success) (events w))
  /\ (~ In (ProcessExited 0) (events w) ->
      (forall p, ~ In (Deleted p) (events w))
      /\ (forall p, In p on_disk \/ In (Wrote p) (events w) ->
                    In p (files w))).
Proof.
  cbv zeta.
  destruct (run_cases E typed on_disk)
    as [Htame|[rest [evs [yt [v [a [Hq [Hi [Hurl Hrun]]]]]]]]].
  - split; [|split].
    + intros H. now apply (tame_in _ _ Htame) in H.
    + intros H. now apply (tame_in _ _ Htame) in H.
    + intros _. split.
      * intros p H. now apply (tame_in _ _ Htame) in H.
      * intros p [H|H]; [|now apply (tame_in _ _ Htame) in H].
        unfold files. now rewrite (replay_tame _ _ Htame), run_disk0.
  - rewrite Hrun. cbn [fst snd events].
    set (T := merge_transcript E yt v a (home E // "Videos")) in *.
    assert (Hsplit : forall e, ~ tame e -> In e (evs ++ snd T) -> In e (snd T)).
    { intros e Hne Hin. apply in_app_or in Hin. destruct Hin as [Hin|Hin].
      - exfalso. apply Hne. eapply quiet_in; eassumption.
      - exact Hin. }
    split; [|split].
    + intros H. apply Hsplit in H; [|simpl; tauto].
      apply success_transcript in H. fold T in H. rewrite H.
      split; [reflexivity|].
      exists (evs ++ [Retrieving (itag v) (home E // "Videos" // video_name yt);
                      Wrote (home E // "Videos" // video_name yt);
                      Retrieving (itag a) (home E // "Videos" // audio_name yt);
                      Wrote (home E // "Videos" // audio_name yt);
                      Printed Msg.merging;
                      Spawned
                        (ffmpeg_cmd (home E // "Videos" // video_name yt)
                           (home E // "Videos" // audio_name yt)
                           (home E // "Videos" // output_name E yt v));
                      Wrote (home E // "Videos" // output_name E yt v);
                      ProcessExited 0]),
             yt, (home E // "Videos" // output_name E yt v).
      cbv zeta. cbn [snd]. split; [now rewrite <- app_assoc|].
      split; [apply in_or_app; right; simpl; tauto|].
      split; [apply in_or_app; right; simpl; tauto|].
      split; [apply in_or_app; right; simpl; tauto|].
      unfold files. cbn [events disk0]. split.
      * match goal with
        | |- ~ In ?p (replay (evs ++ ?l) on_disk) =>
            replace (evs ++ l)
              with ((evs ++ firstn 8 l) ++ Deleted p :: skipn 9 l)
              by (rewrite <- app_assoc; reflexivity)
        end.
        apply replay_deleted. simpl. intuition discriminate.
      * match goal with
        | |- ~ In ?p (replay (evs ++ ?l) on_disk) =>
            replace (evs ++ l)
              with ((evs ++ firstn 9 l) ++ Deleted p :: skipn 10 l)
              by (rewrite <- app_assoc; reflexivity)
        end.
        apply replay_deleted. simpl. intuition discriminate.
    + intros H Hunlink. apply Hsplit in H; [|simpl; tauto].
      apply in_or_app. right.
      apply mux_and_deletions_succeed; [exact H | apply Hunlink..].
    + intros H.
      assert (Hnone : forall p, ~ In (Deleted p) (evs ++ snd T)).
      { intros p Hp. apply Hsplit in Hp; [|simpl; tauto].
        revert p Hp. apply no_mux_no_deletion.
        intros Hm. apply H. apply in_or_app. now right. }
      split; [exact Hnone|].
      intros p Hp. unfold files. cbn [events disk0].
      apply replay_no_deletion; [apply Hnone | exact Hp].
Qed.

(** ** The mux fails, or the clean-up does *)

Section MergeFailures.

Variables (E : Env) (yt : YT.Video) (video_stream audio_stream : Stream).
Variable destino : string.

Let video_path := destino // video_name yt.
Let audio_path := destino // audio_name yt.
Let output_path := destino // output_name E yt video_stream.
Let cmd := ffmpeg_cmd video_path audio_path output_path.
Let T := merge_transcript E yt video_stream audio_stream destino.

Ltac transcript_cases :=
  subst T video_path audio_path output_path cmd;
  unfold merge_transcript; merge_cases.

(** What the mux process printed changes nothing. *)
Lemma merge_outcome_silenced :
  merge_outcome (silenced E) yt video_stream audio_stream destino
  = merge_outcome E yt video_stream audio_stream destino.
Proof.
  unfold merge_outcome, silenced, output_name, Slug.slugify.
  cbn [home int_of_str slug_prepare YouTube spinner_interrupted
       stream_download ffmpeg unlink].
  repeat match goal with
         | |- context [spinner_interrupted E ?t] =>
             destruct (spinner_interrupted E t)
         | |- context [stream_download E ?s ?p] =>
             destruct (stream_download E s p) as [|[|] []]
         | |- context [ffmpeg E ?c] => destruct (ffmpeg E c) as [? ? ?|[|]]
         | |- context [unlink E ?p] => destruct (unlink E p) as [[|]|]
         | |- context [(?n =? 0)%N] => destruct (n =? 0)%N
         end;
    reflexivity.
Qed.

Lemma mux_failure_transcript n :
  n <> 0%N -> In (ProcessExited n) (snd T) ->
  T = (Exit 1,
       [Retrieving (itag video_stream) video_path; Wrote video_path;
        Retrieving (itag audio_stream) audio_path; Wrote audio_path;
        Printed Msg.merging; Spawned cmd; ProcessExited n;
        Printed (Text.nl +++ "❌ Erro durante o processo: Command '"
                   +++ repr_list cmd
                   +++ "' returned non-zero exit status "
                   +++ Text.of_N n +++ ".")]).
Proof.
  transcript_cases; intros Hn H; simpl in H;
    repeat match goal with
           | H : _ \/ _ |- _ => destruct H as [H|H]
           | H : False |- _ => destruct H
           | H : _ = ProcessExited _ |- _ =>
               first [discriminate H | injection H as <-]
           end;
    try congruence; reflexivity.
Qed.

(** After a mux that succeeded, a refused deletion of one of the two
    artifacts ends the run like any other error. *)
Lemma refused_deletion_transcript i p cls msg :
  In (Retrieving i p) (snd T) -> unlink E p = Some (Failed cls msg) ->
  In (ProcessExited 0) (snd T) -> ~ In Interrupt (snd T) ->
  exists cls' msg',
    (unlink E video_path = Some (Failed cls' msg')
     /\ T = (Exit 1,
             [Retrieving (itag video_stream) video_path; Wrote video_path;
              Retrieving (itag audio_stream) audio_path; Wrote audio_path;
              Printed Msg.merging; Spawned cmd; Wrote output_path;
              ProcessExited 0;
              Printed (Msg.process_error (Error cls' msg'))]))
    \/ (unlink E audio_path = Some (Failed cls' msg')
        /\ T = (Exit 1,
                [Retrieving (itag video_stream) video_path; Wrote video_path;
                 Retrieving (itag audio_stream) audio_path; Wrote audio_path;
                 Printed Msg.merging; Spawned cmd; Wrote output_path;
                 ProcessExited 0; Deleted video_path;
                 Printed (Msg.process_error (Error cls' msg'))])).
Proof.
  transcript_cases; intros Hr Hu Hm Hi; simpl in Hr, Hm, Hi;
    first
      [ solve [exfalso; intuition discriminate]
      | solve [do 2 eexists; left; split; reflexivity]
      | solve [do 2 eexists; right; split; reflexivity]
      | exfalso;
        repeat match goal with
               | H : _ \/ _ |- _ => destruct H as [H|H]
               | H : False |- _ => destruct H
               | H : _ = Retrieving _ _ |- _ =>
                   first [discriminate H | injection H as <- <-]
               | H : _ = ProcessExited _ |- _ =>
                   first [discriminate H | injection H as ->]
               end;
        solve [congruence | discriminate] ].
Qed.

End MergeFailures.

Lemma run_silenced E typed on_disk :
  run (silenced E) typed on_disk = run E typed on_disk.
Proof.
  unfold run. rewrite !entry_run, !main_split.
  change (prepare (silenced E)) with (prepare E).
  change (home (silenced E)) with (home E).
  unfold bind.
  destruct (prepare E (start typed on_disk)) as [[[[yt v] a]|e|] w];
    try reflexivity.
  cbn [fst snd]. now rewrite !download_and_merge_outcome, merge_outcome_silenced.
Qed.

(** C6, as the program has it.  What the mux process printed is never
    shown: the run is the same, status and transcript, as if the process
    had printed nothing.  When the process exits with a status other than
    zero the run ends with exit status 1, and the last thing it prints is
    the error message with the command line and the exit status. *)
Theorem mux_failure_reports_status_only (E : Env) (typed : list Key)
  (on_disk : list string) :
  run (silenced E) typed on_disk = run E typed on_disk
  /\ forall n,
       n <> 0%N ->
       In (ProcessExited n) (events (snd (run E typed on_disk))) ->
       fst (run E typed on_disk) = Exit 1
       /\ exists pre cmd,
            events (snd (run E typed on_disk))
            = pre ++ [ProcessExited n;
                      Printed (Text.nl
                                 +++ "❌ Erro durante o processo: Command '"
                                 +++ repr_list cmd
                                 +++ "' returned non-zero exit status "
                                 +++ Text.of_N n +++ ".")]
            /\ In (Spawned cmd) pre.
Proof.
  split; [apply run_silenced|]. intros n Hn Hin.
  destruct (run_cases E typed on_disk)
    as [Htame|[rest [evs [yt [v [a [Hq [Hi [Hurl Hrun]]]]]]]]].
  - now apply (tame_in _ _ Htame) in Hin.
  - rewrite Hrun in *. cbn [fst snd events] in *.
    apply in_app_or in Hin. destruct Hin as [Hin|Hin].
    { now apply (quiet_in _ _ Hq) in Hin. }
    apply (mux_failure_transcript E yt v a _ n Hn) in Hin. rewrite Hin.
    split; [reflexivity|]. cbn [snd].
    eexists (evs ++ _), _. split.
    + rewrite <- app_assoc. f_equal.
      match goal with
      | |- ?l = _ => change l with (firstn 6 l ++ skipn 6 l)
      end. reflexivity.
    + apply in_or_app. right. simpl. tauto.
Qed.

(** C7, as the program has it.  In every run in which the mux process
    succeeded, the deletion of a retrieved artifact is refused and no
    interrupt arrives, the run does not report success: it prints the error
    of a refused deletion and ends with exit status 1.  The artifact whose
    deletion was refused, one of the two temporary files of the video that
    was fetched, and the output file, the last argument of the mux command
    that was run, named after the title and the chosen resolution, are
    two different files and both are on the disk at the end. *)
Theorem refused_deletion_is_fatal (E : Env) (typed : list Key)
  (on_disk : list string) (i : N) (p cls msg : string) :
  let st := fst (run E typed on_disk) in
  let w := snd (run E typed on_disk) in
  In (Retrieving i p) (events w) -> unlink E p = Some (Failed cls msg) ->
  In (ProcessExited 0) (events w) -> ~ In Interrupt (events w) ->
  st = Exit 1
  /\ ~ In (Printed Msg.success) (events w)
  /\ exists pre i' p' cls' msg' output_path,
       events w = pre ++ [Printed (Msg.process_error (Error cls' msg'))]
       /\ In (Retrieving i' p') pre
       /\ unlink E p' = Some (Failed cls' msg')
       /\ In p' (files w)
       /\ In (Wrote output_path) pre
       /\ In output_path (files w)
       /\ output_path <> p'
       /\ exists url yt resolucao video_stream,
            let video_path := home E // "Videos" // video_name yt in
            let audio_path := home E // "Videos" // audio_name yt in
            YouTube E url = inr yt
            /\ In resolucao (availableResolutions (YT.streams yt))
            /\ resolve_video (YT.streams yt) resolucao = Some video_stream
            /\ output_path
               = home E // "Videos" // output_name E yt video_stream
            /\ (p' = video_path \/ p' = audio_path)
            /\ In (Spawned (ffmpeg_cmd video_path audio_path output_path))
                  pre.
Proof.
  cbv zeta. intros Hr Hu Hm Hn.
  destruct (run_cases_resolved E typed on_disk)
    as [Htame|[rest [evs [yt [v [a [Hq [Hi [[url Hurl] [_ [[r [Hr0 Hv]]
                                                          Hrun]]]]]]]]]]].
  { now apply (tame_in _ _ Htame) in Hm. }
  rewrite Hrun in *. cbn [fst snd events] in *.
  assert (Hsplit : forall e, ~ tame e ->
                     In e (evs ++ snd (merge_transcript E yt v a
                                         (home E // "Videos"))) ->
                     In e (snd (merge_transcript E yt v a
                                  (home E // "Videos")))).
  { intros e Hne Hin. apply in_app_or in Hin. destruct Hin as [Hin|Hin].
    - exfalso. apply Hne. eapply quiet_in; eassumption.
    - exact Hin. }
  apply Hsplit in Hr; [|simpl; tauto]. apply Hsplit in Hm; [|simpl; tauto].
  assert (Hn' : ~ In Interrupt (snd (merge_transcript E yt v a
                                       (home E // "Videos")))).
  { intros H. apply Hn. apply in_or_app. now right. }
  assert (Hquiet : forall e, ~ tame e -> ~ In e evs).
  { intros e Hne Hin. apply Hne. eapply quiet_in; eassumption. }
  destruct (output_name_not_temporary E yt v) as [Hov Hoa].
  assert (Hpv : home E // "Videos" // output_name E yt v
                <> home E // "Videos" // video_name yt).
  { intros H. now apply path_join_inj in H. }
  assert (Hpa : home E // "Videos" // output_name E yt v
                <> home E // "Videos" // audio_name yt).
  { intros H. now apply path_join_inj in H. }
  assert (Hbound :
            forall pre p',
              p' = home E // "Videos" // video_name yt
              \/ p' = home E // "Videos" // audio_name yt ->
              In (Spawned
                    (ffmpeg_cmd (home E // "Videos" // video_name yt)
                       (home E // "Videos" // audio_name yt)
                       (home E // "Videos" // output_name E yt v))) pre ->
              exists url0 yt0 r0 v0,
                YouTube E url0 = inr yt0
                /\ In r0 (availableResolutions (YT.streams yt0))
                /\ resolve_video (YT.streams yt0) r0 = Some v0
                /\ home E // "Videos" // output_name E yt v
                   = home E // "Videos" // output_name E yt0 v0
                /\ (p' = home E // "Videos" // video_name yt0
                    \/ p' = home E // "Videos" // audio_name yt0)
                /\ In (Spawned
                         (ffmpeg_cmd (home E // "Videos" // video_name yt0)
                            (home E // "Videos" // audio_name yt0)
                            (home E // "Videos" // output_name E yt v)))
                      pre).
  { intros pre p' Hp' Hs. exists url, yt, r, v. now repeat split. }
  destruct (refused_deletion_transcript E yt v a _ i p cls msg Hr Hu Hm Hn')
    as [cls' [msg' [[Hf HT]|[Hf HT]]]]; rewrite HT; cbn [fst snd];
    (split; [reflexivity|]); split.
  - rewrite in_app_iff. intros [H|H]; [now apply (quiet_in _ _ Hq) in H|].
    simpl in H. intuition discriminate.
  - eexists (evs ++ _), (itag v), _, cls', msg', _. split.
    { rewrite <- app_assoc. f_equal.
      match goal with
      | |- ?l = _ => change l with (firstn 8 l ++ skipn 8 l)
      end. reflexivity. }
    split; [apply in_or_app; right; simpl; tauto|].
    split; [exact Hf|]. unfold files. cbn [events disk0].
    split; [|split; [|split; [|split]]].
    + apply replay_no_deletion.
      * rewrite in_app_iff. intros [H|H]; [now apply Hquiet in H|].
        simpl in H. intuition discriminate.
      * right. apply in_or_app. right. simpl. tauto.
    + apply in_or_app. right. simpl. do 6 right. left. reflexivity.
    + apply replay_no_deletion.
      * rewrite in_app_iff. intros [H|H]; [now apply Hquiet in H|].
        simpl in H. intuition discriminate.
      * right. apply in_or_app. right. simpl. tauto.
    + exact Hpv.
    + apply Hbound; [now left|].
      apply in_or_app. right. simpl. do 5 right. left. reflexivity.
  - rewrite in_app_iff. intros [H|H]; [now apply (quiet_in _ _ Hq) in H|].
    simpl in H. intuition discriminate.
  - eexists (evs ++ _), (itag a), _, cls', msg', _. split.
    { rewrite <- app_assoc. f_equal.
      match goal with
      | |- ?l = _ => change l with (firstn 9 l ++ skipn 9 l)
      end. reflexivity. }
    split; [apply in_or_app; right; simpl; tauto|].
    split; [exact Hf|]. unfold files. cbn [events disk0].
    split; [|split; [|split; [|split]]].
    + apply replay_no_deletion.
      * rewrite in_app_iff. intros [H|H]; [now apply Hquiet in H|].
        simpl in H.
        repeat match goal with
               | H : _ \/ _ |- _ => destruct H as [H|H]
               end; try discriminate; try contradiction.
        injection H as H. revert H. apply video_path_not_audio_path.
      * right. apply in_or_app. right. simpl. tauto.
    + apply in_or_app. right. simpl. do 6 right. left. reflexivity.
    + apply replay_no_deletion.
      * rewrite in_app_iff. intros [H|H]; [now apply Hquiet in H|].
        simpl in H.
        repeat match goal with
               | H : _ \/ _ |- _ => destruct H as [H|H]
               end; try discriminate; try contradiction.
        injection H as H. apply path_join_inj in H. symmetry in H.
        now apply Hov.
      * right. apply in_or_app. right. simpl. tauto.
    + exact Hpa.
    + apply Hbound; [now right|].
      apply in_or_app. right. simpl. do 5 right. left. reflexivity.
Qed.

(** ** No resolution to choose from *)

Lemma quiet_not_found evs :
  Forall quiet_event evs -> ~ In (Printed Msg.streams_not_found) evs.
Proof.
  intros H Hin. rewrite Forall_forall in H. now destruct (H _ Hin) as [_ []].
Qed.

(** C4 at the collections that offer no resolution, the empty one among
    them: the run never gets to the test that reports missing streams.  It
    goes on prompting until the user interrupts it or the input ends; it
    does not end with exit status 1, the message is not printed, and the
    files are untouched. *)
Theorem no_resolution_never_reports (E : Env) (typed : list Key)
  (on_disk : list string) :
  (forall url, exists yt,
      YouTube E url = inr yt /\ availableResolutions (YT.streams yt) = []) ->
  let st := fst (run E typed on_disk) in
  let w := snd (run E typed on_disk) in
  (st = Waiting \/ (st = Exit 0 /\ In Interrupt (events w))
   \/ st = Traceback EOFError)
  /\ ~ In (Printed Msg.streams_not_found) (events w)
  /\ files w = on_disk.
Proof.
  intros Hempty. cbv zeta.
  assert (Hnone : forall url yt r,
            YouTube E url = inr yt ->
            ~ In r (availableResolutions (YT.streams yt))).
  { intros url yt r Hyt Hin. destruct (Hempty url) as [yt' [Hyt' Hnil]].
    rewrite Hyt in Hyt'. injection Hyt' as <-. now rewrite Hnil in Hin. }
  assert (Hfiles : Forall tame (events (snd (run E typed on_disk))) ->
                   files (snd (run E typed on_disk)) = on_disk).
  { intros Ht. unfold files. now rewrite (replay_tame _ _ Ht), run_disk0. }
  revert Hfiles.
  destruct (run_shape E typed on_disk) as [rest [evs [r [Hprep Hrun]]]].
  rewrite Hrun. clear Hrun. destruct r as [[[yt v] a]|e|].
  - exfalso. destruct Hprep as [_ [_ [[url Hyt] [_ [r [Hin _]]]]]].
    now apply (Hnone url yt r).
  - destruct e; cbn [prepared] in Hprep; try contradiction;
      cbn [fst snd handled status_of events]; intros Hfiles.
    + destruct Hprep as [pre [-> [Hq _]]]. split; [|split].
      * right. left. split; [reflexivity|].
        rewrite <- app_assoc. apply in_or_app. right. now left.
      * rewrite !in_app_iff. intros [[H|H]|H].
        -- now apply quiet_not_found in H.
        -- simpl in H. intuition discriminate.
        -- simpl in H. intuition discriminate.
      * apply Hfiles. rewrite <- app_assoc. apply Forall_app.
        split; [now apply quiet_tame|]. repeat constructor. discriminate.
    + exfalso. destruct Hprep as [_ [pre [text [_ [_ [_ Hwhy]]]]]].
      destruct Hwhy as [[url [cls [msg [Hyt _]]]]|[_ [url [yt [r [Hyt [Hin _]]]]]]].
      * destruct (Hempty url) as [yt [Hyt' _]]. congruence.
      * now apply (Hnone url yt r).
    + destruct Hprep as [Hq _]. rewrite app_nil_r in *. split; [|split].
      * now right; right.
      * now apply quiet_not_found.
      * apply Hfiles. now apply quiet_tame.
  - destruct Hprep as [Hq _]. cbn [fst snd events]. intros Hfiles.
    split; [|split].
    + now left.
    + now apply quiet_not_found.
    + apply Hfiles. now apply quiet_tame.
Qed.

(** ** Scenarios *)

Ltac found := vm_compute; repeat (first [left; reflexivity | right]).

(** The scenario of the specification: ordinal 2 after two rejected
    answers; the run succeeds and leaves the output file alone. *)
Lemma success_scenario :
  fst (run Demo.env [Demo.url; Typed "abc"; Typed "7"; Typed "2"] [])
  = Exit 0
  /\ files (snd (run Demo.env
                   [Demo.url; Typed "abc"; Typed "7"; Typed "2"] []))
     = ["/home/user/Videos/never-gonna-give-you-up_720p.mp4"].
Proof.
  split; [|vm_compute; reflexivity].
  apply (proj1 (temporaries_deleted_on_success_only Demo.env
                  [Demo.url; Typed "abc"; Typed "7"; Typed "2"] [])).
  found.
Defined.

(** The mux process exits with status 1: the run fails, and the
    diagnostics of the process are in nothing that it prints. *)
Lemma mux_failure_hides_diagnostics :
  In (ProcessExited 1)
     (events (snd (run Demo.mux_fails [Demo.url; Typed "1"] [])))
  /\ fst (run Demo.mux_fails [Demo.url; Typed "1"] []) = Exit 1
  /\ ~ exists text,
         In (Printed text)
            (events (snd (run Demo.mux_fails [Demo.url; Typed "1"] [])))
         /\ Text.contains text Demo.diagnostics = true.
Proof.
  split; [found|]. split; [vm_compute; reflexivity|].
  intros [text [Hin Hshown]].
  assert (Hall : forallb
                   (fun e => match e with
                             | Printed t =>
                                 negb (Text.contains t Demo.diagnostics)
                             | _ => true
                             end)
                   (events (snd (run Demo.mux_fails
                                   [Demo.url; Typed "1"] []))) = true)
    by (vm_compute; reflexivity).
  rewrite forallb_forall in Hall. specialize (Hall _ Hin). simpl in Hall.
  rewrite Hshown in Hall. discriminate.
Qed.

Lemma mux_failure_scenario :
  fst (run Demo.mux_fails [Demo.url; Typed "1"] []) = Exit 1
  /\ run (silenced Demo.mux_fails) [Demo.url; Typed "1"] []
     = run Demo.mux_fails [Demo.url; Typed "1"] [].
Proof.
  destruct (mux_failure_reports_status_only Demo.mux_fails
              [Demo.url; Typed "1"] []) as [Hsame Hfail].
  split; [|exact Hsame].
  apply (Hfail 1%N); [discriminate | found].
Defined.

(** The system refuses the deletions after a mux that succeeded: the run
    ends with exit status 1 and does not report success. *)
Lemma refused_deletion_fails_the_run :
  In (ProcessExited 0)
     (events (snd (run Demo.read_only [Demo.url; Typed "1"] [])))
  /\ fst (run Demo.read_only [Demo.url; Typed "1"] []) = Exit 1
  /\ ~ In (Printed Msg.success)
         (events (snd (run Demo.read_only [Demo.url; Typed "1"] []))).
Proof.
  split; [found|]. split; [vm_compute; reflexivity|].
  vm_compute. intuition discriminate.
Qed.

Lemma refused_deletion_scenario :
  fst (run Demo.read_only [Demo.url; Typed "1"] []) = Exit 1
  /\ ~ In (Printed Msg.success)
         (events (snd (run Demo.read_only [Demo.url; Typed "1"] []))).
Proof.
  assert (Hint : ~ In Interrupt
                   (events (snd (run Demo.read_only
                                   [Demo.url; Typed "1"] [])))).
  { vm_compute. intuition discriminate. }
  destruct (refused_deletion_is_fatal Demo.read_only [Demo.url; Typed "1"] []
              137 "/home/user/Videos/dQw4w9WgXcQ_video.mp4"
              "PermissionError"
              "[Errno 13] Permission denied: '/home/user/Videos/dQw4w9WgXcQ_video.mp4'")
    as [Hst [Hsilent _]]; [found | reflexivity | found | exact Hint |].
  split; assumption.
Defined.

(** The interrupt arrives while the audio is retrieved: exit status 0, and
    the video and the part of the audio already written stay on the disk. *)
Lemma interrupt_scenario :
  fst (run Demo.interrupted_retrieval [Demo.url; Typed "1"] []) = Exit 0
  /\ files (snd (run Demo.interrupted_retrieval [Demo.url; Typed "1"] []))
     = ["/home/user/Videos/dQw4w9WgXcQ_audio.mp4";
        "/home/user/Videos/dQw4w9WgXcQ_video.mp4"].
Proof.
  split; [|vm_compute; reflexivity].
  apply (interrupt_exits_zero Demo.interrupted_retrieval
           [Demo.url; Typed "1"] []).
  found.
Defined.

(** The empty collection: whatever is typed, the run still prompts. *)
Lemma empty_collection_scenario :
  fst (run Demo.nothing [Demo.url; Typed "1"; Typed "0"; Typed "-1"] [])
  = Waiting
  /\ ~ In (Printed Msg.streams_not_found)
         (events (snd (run Demo.nothing
                         [Demo.url; Typed "1"; Typed "0"; Typed "-1"] []))).
Proof.
  split; [vm_compute; reflexivity|].
  apply (no_resolution_never_reports Demo.nothing
           [Demo.url; Typed "1"; Typed "0"; Typed "-1"] []).
  intros url. eexists. split; reflexivity.
Defined.

(** A collection with video but no audio: here the test of line 205 is
    reached, and the run ends before any retrieval. *)
Lemma no_audio_scenario :
  run Demo.no_audio [Demo.url; Typed "1"] []
  = (Exit 1,
     mkWorld [] []
       (firstn 13 (events (snd (run Demo.no_audio [Demo.url; Typed "1"] [])))
        ++ [Prompted Msg.ask_resolution; Printed Msg.streams_not_found])).
Proof. vm_compute. reflexivity. Qed.

(** * Further properties *)

(** ** The listing and the ordinals *)

Lemma listing_from_length n rs : List.length (listing_from n rs) = List.length rs.
Proof.
  revert n. induction rs as [|r rest IH]; intros n; simpl; [reflexivity|].
  now rewrite IH.
Qed.

Lemma listing_from_nth n rs k r :
  nth_error rs k = Some r ->
  nth_error (listing_from n rs) k
  = Some (Printed (Msg.resolution_line (S (n + k)) r)).
Proof.
  revert n k. induction rs as [|r0 rest IH]; intros n [|k] H; simpl in *;
    try discriminate.
  - injection H as ->. now rewrite Nat.add_0_r.
  - rewrite (IH (S n) k H). now rewrite Nat.add_succ_r.
Qed.

(** The listing prints one numbered line for each label it appends. *)
Lemma list_resolutions_listing vs acc w :
  exists new,
    fold_left collect vs acc = acc ++ new
    /\ list_resolutions vs acc w
       = (Ret (acc ++ new),
          advance w (keys w) (listing_from (List.length acc) new)).
Proof.
  revert acc w. induction vs as [|stream rest IH]; intros acc w.
  - exists []. simpl. rewrite app_nil_r. split; [reflexivity|].
    unfold ret. now rewrite advance_nil.
  - cbn [fold_left list_resolutions].
    assert (Hskip : collect acc stream = acc ->
              exists new,
                fold_left collect rest (collect acc stream) = acc ++ new
                /\ list_resolutions rest acc w
                   = (Ret (acc ++ new),
                      advance w (keys w)
                        (listing_from (List.length acc) new))).
    { intros ->. apply IH. }
    destruct (resolution stream) as [r|] eqn:Hr;
      [|apply Hskip; unfold collect; now rewrite Hr].
    destruct (negb (mem_N r acc)) eqn:Hm;
      [|apply Hskip; unfold collect; now rewrite Hr, Hm].
    replace (collect acc stream) with (acc ++ [r])
      by (unfold collect; now rewrite Hr, Hm).
    clear Hskip. unfold bind. rewrite print_run.
    destruct (IH (acc ++ [r])
                (advance w (keys w)
                   [Printed (Msg.resolution_line
                               (List.length (acc ++ [r])) r)]))
      as [new [Hfold Hrun]].
    exists (r :: new). rewrite Hfold, Hrun, advance_advance, keys_advance.
    rewrite <- app_assoc. split; [reflexivity|].
    rewrite length_app. simpl. now rewrite Nat.add_1_r.
Qed.

Lemma select_resolution_listing E vs w :
  select_resolution E vs w
  = selection_loop E (resolucoes_of vs)
      (advance w (keys w)
         (Printed Msg.resolutions_header
          :: listing_from 0 (resolucoes_of vs)
          ++ [Printed Msg.resolutions_footer])).
Proof.
  unfold select_resolution, bind. rewrite print_run.
  destruct (list_resolutions_listing vs []
              (advance w (keys w) [Printed Msg.resolutions_header]))
    as [new [Hfold Hrun]].
  rewrite Hrun. simpl app. rewrite print_run, !advance_advance, !keys_advance.
  unfold resolucoes_of. rewrite Hfold. simpl app. simpl List.length.
  reflexivity.
Qed.

(** X1.  The number that the listing shows beside a label is the ordinal
    that selects it: the labels are listed in order on lines numbered from
    1, between the header and the footer, and typing the number of a line
    makes [select_resolution] return the label of that line. *)
Theorem listed_ordinal_selects (E : Env) (vs : list Stream) (w : World)
  (line : string) (rest : list Key) (k : nat) (r : N) :
  keys w = Typed line :: rest ->
  int_of_str E line = Some (Z.of_nat (S k)) ->
  nth_error (resolucoes_of vs) k = Some r ->
  select_resolution E vs w
  = (Ret r,
     advance w rest
       (Printed Msg.resolutions_header
        :: listing_from 0 (resolucoes_of vs)
        ++ [Printed Msg.resolutions_footer; Prompted Msg.ask_resolution]))
  /\ nth_error (listing_from 0 (resolucoes_of vs)) k
     = Some (Printed (Msg.resolution_line (S k) r))
  /\ List.length (listing_from 0 (resolucoes_of vs))
     = List.length (resolucoes_of vs).
Proof.
  intros Hk Hi Hn. split; [|split].
  - rewrite select_resolution_listing.
    match goal with
    | |- selection_loop _ _ ?w1 = _ =>
        rewrite (selection_loop_typed E (resolucoes_of vs) w1 line rest Hk)
    end.
    rewrite Hi.
    assert (Hlt : (k < List.length (resolucoes_of vs))%nat).
    { apply nth_error_Some. now rewrite Hn. }
    replace ((1 <=? Z.of_nat (S k))
             && (Z.of_nat (S k) <=? Z.of_nat (List.length (resolucoes_of vs))))%Z
      with true
      by (symmetry; apply andb_true_iff; split; apply Z.leb_le; lia).
    replace (Z.to_nat (Z.of_nat (S k) - 1)) with k by lia.
    rewrite Hn, advance_advance. simpl app.
    now rewrite <- app_assoc.
  - now apply (listing_from_nth 0).
  - apply listing_from_length.
Qed.

Lemma listed_ordinal_scenario :
  fst (select_resolution Demo.env (video_streams Demo.catalogue)
         (start [Typed "2"] []))
  = Ret 720%N.
Proof.
  exact (f_equal fst
           (proj1 (listed_ordinal_selects Demo.env
                     (video_streams Demo.catalogue) (start [Typed "2"] [])
                     "2" [] 1 720%N eq_refl eq_refl eq_refl))).
Defined.

(** ** The video descriptor of a listed label *)

Lemma availableResolutions_In streams r :
  In r (availableResolutions streams)
  <-> exists s, In s streams /\ adaptive s = true /\ only_video s = true
                /\ file_extension "mp4" s = true /\ resolution s = Some r.
Proof.
  unfold availableResolutions.
  rewrite resolucoes_of_keep_first, keep_first_In, labels_In.
  unfold video_streams, desc. split.
  - intros [s [Hs Hr]]. exists s.
    apply in_rev, order_by_In in Hs. destruct Hs as [Hs _].
    apply filter_by_In in Hs. destruct Hs as [Hs Hc].
    repeat split; try exact Hs; try exact Hr; apply Hc; simpl; auto.
  - intros [s [Hs [Ha [Hv [He Hr]]]]]. exists s. split; [|exact Hr].
    apply -> in_rev. apply order_by_In. split.
    + apply filter_by_In. split; [exact Hs|].
      intros c [<-|[<-|[<-|[]]]]; assumption.
    + unfold has_attribute. now rewrite Hr.
Qed.

(** The head of a filtered list is the first element that passes. *)
Lemma filter_head {A} (P : A -> bool) l :
  (exists s, In s l /\ P s = true) ->
  exists pre v post,
    l = pre ++ v :: post /\ P v = true
    /\ (forall x, In x pre -> P x = false)
    /\ hd_error (filter P l) = Some v.
Proof.
  induction l as [|x l IH]; intros [s [Hin Hs]]; [destruct Hin|].
  destruct (P x) eqn:Hx.
  - exists [], x, l. simpl. rewrite Hx. repeat split; tauto.
  - destruct IH as [pre [v [post [-> [Hv [Hpre Hhd]]]]]].
    { destruct Hin as [->|Hin]; [congruence | now exists s]. }
    exists (x :: pre), v, post. simpl. rewrite Hx.
    repeat split; try assumption.
    intros y [<-|Hy]; [exact Hx | now apply Hpre].
Qed.

(** X2.  For every label that the listing offers, the video query of
    lines 194-198 finds a descriptor: it is the first descriptor of the
    catalogue, in catalogue order, that is video-only, mp4 and of that
    resolution.  So after a choice the video descriptor is never
    missing. *)
Theorem listed_label_has_video (streams : list Stream) (r : N) :
  In r (availableResolutions streams) ->
  exists pre v post,
    streams = pre ++ v :: post
    /\ resolve_video streams r = Some v
    /\ resolution v = Some r /\ only_video v = true
    /\ file_extension "mp4" v = true
    /\ forall x, In x pre -> video_match r x = false.
Proof.
  intros Hin. apply availableResolutions_In in Hin.
  destruct Hin as [s [Hs [_ [Hv [He Hr]]]]].
  destruct (filter_head (video_match r) streams)
    as [pre [v [post [Heq [Hm [Hpre Hhd]]]]]].
  { exists s. split; [exact Hs|]. unfold video_match, res. simpl.
    now rewrite Hr, N.eqb_refl, Hv, He. }
  exists pre, v, post. split; [exact Heq|]. split; [exact Hhd|].
  unfold video_match in Hm. simpl in Hm.
  apply andb_true_iff in Hm. destruct Hm as [Hres Hm].
  apply andb_true_iff in Hm. destruct Hm as [Hov Hm].
  apply andb_true_iff in Hm. destruct Hm as [Hext _].
  repeat split; try assumption.
  unfold res in Hres. destruct (resolution v) as [h|]; [|discriminate].
  apply N.eqb_eq in Hres. now subst.
Qed.

Lemma listed_label_scenario :
  exists pre v post,
    Demo.catalogue = pre ++ v :: post
    /\ resolve_video Demo.catalogue 720 = Some v
    /\ resolution v = Some 720%N /\ only_video v = true
    /\ file_extension "mp4" v = true
    /\ forall x, In x pre -> video_match 720 x = false.
Proof.
  apply (listed_label_has_video Demo.catalogue 720%N).
  vm_compute. right. left. reflexivity.
Defined.

(** ** The selection loop, key by key *)

Lemma selection_prompts_advance w rest evs :
  selection_prompts (events (advance w rest evs))
  = selection_prompts (events w) + selection_prompts evs.
Proof. apply selection_prompts_app. Qed.

(** X3.  The loop rejects lines one by one and ends at the first key that
    is a valid ordinal, the interrupt key or the end of the input: it
    returns the label or raises [KeyboardInterrupt] or [EOFError]
    accordingly, has prompted once per key read, and leaves the keys after
    that one unread. *)
Theorem selection_loop_first_answer (E : Env) (resolucoes : list N)
  (lines : list string) (k : Key) (rest : list Key) (res : Res N)
  (w : World) :
  keys w = map Typed lines ++ k :: rest ->
  (forall line, In line lines -> answer E resolucoes (Typed line) = None) ->
  answer E resolucoes k = Some res ->
  fst (selection_loop E resolucoes w) = res
  /\ keys (snd (selection_loop E resolucoes w)) = rest
  /\ selection_prompts (events (snd (selection_loop E resolucoes w)))
     = selection_prompts (events w) + S (List.length lines).
Proof.
  revert w. induction lines as [|line lines IH]; intros w Hk Hrej Hans.
  - simpl in Hk. destruct k as [line| |]; simpl in Hans.
    + rewrite (selection_loop_typed E resolucoes w line rest Hk).
      destruct (int_of_str E line) as [i|]; [|discriminate].
      destruct ((1 <=? i) && (i <=? Z.of_nat (List.length resolucoes)))%Z;
        [|discriminate].
      destruct (nth_error resolucoes (Z.to_nat (i - 1))) as [r|];
        [|discriminate].
      injection Hans as <-. cbn [fst snd].
      rewrite selection_prompts_advance. now repeat split.
    + injection Hans as <-.
      rewrite (selection_loop_ctrl_c E resolucoes w rest Hk). cbn [fst snd].
      rewrite selection_prompts_advance. now repeat split.
    + injection Hans as <-.
      rewrite (selection_loop_ctrl_d E resolucoes w rest Hk). cbn [fst snd].
      rewrite selection_prompts_advance. now repeat split.
  - simpl in Hk.
    rewrite (selection_loop_typed E resolucoes w line
               (map Typed lines ++ k :: rest) Hk).
    pose proof (Hrej line (or_introl eq_refl)) as Hline. simpl in Hline.
    assert (Hnext : forall text,
              let w1 := advance w (map Typed lines ++ k :: rest)
                          [Prompted Msg.ask_resolution; Printed text] in
              fst (selection_loop E resolucoes w1) = res
              /\ keys (snd (selection_loop E resolucoes w1)) = rest
              /\ selection_prompts
                   (events (snd (selection_loop E resolucoes w1)))
                 = selection_prompts (events w)
                   + S (List.length (line :: lines))).
    { intros text w1.
      destruct (IH w1 eq_refl (fun l Hl => Hrej l (or_intror Hl)) Hans)
        as [H1 [H2 H3]].
      split; [exact H1|]. split; [exact H2|]. rewrite H3.
      subst w1. rewrite selection_prompts_advance.
      change (selection_prompts [Prompted Msg.ask_resolution; Printed text])
        with 1. simpl List.length. lia. }
    destruct (int_of_str E line) as [i|]; [|apply Hnext].
    destruct ((1 <=? i) && (i <=? Z.of_nat (List.length resolucoes)))%Z;
      [|apply Hnext].
    destruct (nth_error resolucoes (Z.to_nat (i - 1))) as [r|];
      [discriminate|].
    destruct (IH (advance w (map Typed lines ++ k :: rest)
                    [Prompted Msg.ask_resolution])
                eq_refl (fun l Hl => Hrej l (or_intror Hl)) Hans)
      as [H1 [H2 H3]].
    split; [exact H1|]. split; [exact H2|]. rewrite H3.
    rewrite selection_prompts_advance.
    change (selection_prompts [Prompted Msg.ask_resolution]) with 1.
    simpl List.length. lia.
Qed.

Lemma selection_loop_end_of_input_scenario :
  fst (selection_loop Demo.env [1080%N; 720%N]
         (start [Typed "abc"; Typed "3"; CtrlD; Typed "1"] []))
  = Raise EOFError
  /\ keys (snd (selection_loop Demo.env [1080%N; 720%N]
                  (start [Typed "abc"; Typed "3"; CtrlD; Typed "1"] [])))
     = [Typed "1"].
Proof.
  destruct (selection_loop_first_answer Demo.env [1080%N; 720%N]
              ["abc"; "3"] CtrlD [Typed "1"] (Raise EOFError)
              (start [Typed "abc"; Typed "3"; CtrlD; Typed "1"] []))
    as [H1 [H2 _]].
  - reflexivity.
  - intros line [<-|[<-|[]]]; reflexivity.
  - reflexivity.
  - split; assumption.
Defined.

(** ** The characters of the output name *)

Lemma all_chars_append P a b :
  Slug.all_chars P (a +++ b) = Slug.all_chars P a && Slug.all_chars P b.
Proof.
  induction a as [|c a IH]; simpl; [reflexivity|].
  now rewrite IH, andb_assoc.
Qed.

Lemma all_chars_impl (P Q : ascii -> bool) s :
  (forall c, P c = true -> Q c = true) ->
  Slug.all_chars P s = true -> Slug.all_chars Q s = true.
Proof.
  intros HPQ. induction s as [|c s IH]; simpl; [reflexivity|].
  intros H. apply andb_true_iff in H. destruct H as [Hc Hs].
  now rewrite (HPQ c Hc), IH.
Qed.

Lemma string_of_uint_digits d :
  Slug.all_chars Slug.allowed (NilEmpty.string_of_uint d) = true.
Proof. induction d; simpl; try reflexivity; exact IHd. Qed.

(** X4.  Whatever the title and the descriptor, the output name is made
    of letters, digits, dashes, underscores and dots: it holds no path
    separator, so the output file lies in the destination directory
    itself. *)
Theorem output_name_stays_in_directory (E : Env) (yt : YT.Video)
  (video_stream : Stream) :
  Slug.all_chars name_char (output_name E yt video_stream) = true
  /\ Slug.all_chars (fun c => negb (Ascii.eqb c "/"%char))
       (output_name E yt video_stream) = true.
Proof.
  assert (Hname : Slug.all_chars name_char (output_name E yt video_stream)
                  = true).
  { assert (Hallowed : forall s, Slug.all_chars Slug.allowed s = true ->
                                 Slug.all_chars name_char s = true).
    { intros s. apply all_chars_impl. intros c Hc.
      unfold name_char. now rewrite Hc. }
    unfold output_name. rewrite !all_chars_append.
    rewrite (Hallowed _ (slugify_allowed E (YT.title yt))).
    unfold fmt_resolution, res_text, Text.of_N.
    destruct (resolution video_stream) as [h|]; [|reflexivity].
    rewrite all_chars_append.
    now rewrite (Hallowed _ (string_of_uint_digits (N.to_uint h))). }
  split; [exact Hname|].
  revert Hname. apply all_chars_impl. intros c Hc.
  destruct (Ascii.eqb_spec c "/"%char) as [->|]; [discriminate|reflexivity].
Qed.

(** ** The order of the retrieval and the mux *)

Section MergeOrder.

Variables (E : Env) (yt : YT.Video) (video_stream audio_stream : Stream).
Variable destino : string.

Let video_path := destino // video_name yt.
Let audio_path := destino // audio_name yt.
Let output_path := destino // output_name E yt video_stream.
Let cmd := ffmpeg_cmd video_path audio_path output_path.
Let T := merge_transcript E yt video_stream audio_stream destino.

Ltac transcript_cases :=
  subst T video_path audio_path output_path cmd;
  unfold merge_transcript; merge_cases.

Ltac disjuncts :=
  repeat match goal with
         | H : _ \/ _ |- _ => destruct H as [H|H]
         | H : False |- _ => destruct H
         end.

Lemma transcript_not_found : ~ In (Printed Msg.streams_not_found) (snd T).
Proof.
  transcript_cases; intros H; simpl in H; disjuncts; discriminate.
Qed.

Lemma spawned_transcript c :
  In (Spawned c) (snd T) ->
  c = cmd
  /\ exists post,
       snd T
       = [Retrieving (itag video_stream) video_path; Wrote video_path;
          Retrieving (itag audio_stream) audio_path; Wrote audio_path;
          Printed Msg.merging; Spawned cmd] ++ post
       /\ (forall c', ~ In (Spawned c') post)
       /\ (forall i p, ~ In (Retrieving i p) post).
Proof.
  transcript_cases; intros H; simpl in H; disjuncts; try discriminate;
    injection H as <-; (split; [reflexivity|]);
    match goal with
    | |- exists post, ?l = _ /\ _ =>
        exists (skipn 6 l); split; [reflexivity|];
        split; [intros c' Hc | intros i p Hc];
        simpl in Hc; disjuncts; discriminate
    end.
Qed.


Lemma transcript_status :
  (fst T = Exit 0
   /\ (In (Printed Msg.success) (snd T) \/ In Interrupt (snd T)))
  \/ (fst T = Exit 1
      /\ ~ In (Printed Msg.success) (snd T) /\ ~ In Interrupt (snd T)
      /\ exists pre e, snd T = pre ++ [Printed (Msg.process_error e)]).
Proof.
  transcript_cases;
    first
      [ left; split; [reflexivity|]; simpl; tauto
      | right; split; [reflexivity|];
        split; [simpl; intros H; disjuncts; discriminate|];
        split; [simpl; intros H; disjuncts; discriminate|];
        match goal with
        | |- exists pre e, ?l = _ =>
            exists (removelast l); eexists; reflexivity
        end ].
Qed.

Lemma deleted_transcript p :
  In (Deleted p) (snd T) -> p = video_path \/ p = audio_path.
Proof.
  transcript_cases; intros H; simpl in H; disjuncts; try discriminate;
    injection H as <-; tauto.
Qed.

End MergeOrder.

(** ** Runs that end before the retrieval *)

Lemma resolve_video_listed streams r :
  In r (availableResolutions streams) ->
  exists v, resolve_video streams r = Some v.
Proof.
  intros Hin. apply availableResolutions_In in Hin.
  destruct Hin as [s [Hs [_ [Hv [He Hr]]]]].
  destruct (filter_head (video_match r) streams)
    as [pre [v [post [_ [_ [_ Hhd]]]]]].
  { exists s. split; [exact Hs|]. unfold video_match, res. simpl.
    now rewrite Hr, N.eqb_refl, Hv, He. }
  now exists v.
Qed.

Lemma quiet_no_retrieval evs :
  Forall quiet_event evs ->
  (forall i p, ~ In (Retrieving i p) evs)
  /\ (forall c, ~ In (Spawned c) evs).
Proof.
  intros Hq. split; intros; intros Hin; now apply (quiet_in _ _ Hq) in Hin.
Qed.

(** X5.  In every run that prints the message of the missing streams, a
    resolution was chosen, its video descriptor was found and no audio-only
    mp4 descriptor with a bitrate exists; the message is the last thing
    the run does: it ends with exit status 1 without any retrieval or mux
    attempt and leaves the files as they were. *)
Theorem missing_audio_reported (E : Env) (typed : list Key)
  (on_disk : list string) :
  let st := fst (run E typed on_disk) in
  let w := snd (run E typed on_disk) in
  In (Printed Msg.streams_not_found) (events w) ->
  st = Exit 1
  /\ (exists pre url yt r v,
        events w = pre ++ [Printed Msg.streams_not_found]
        /\ Forall quiet_event pre
        /\ YouTube E url = inr yt
        /\ In r (availableResolutions (YT.streams yt))
        /\ resolve_video (YT.streams yt) r = Some v
        /\ resolve_audio (YT.streams yt) = None)
  /\ (forall i p, ~ In (Retrieving i p) (events w))
  /\ (forall c, ~ In (Spawned c) (events w))
  /\ files w = on_disk.
Proof.
  cbv zeta.
  assert (Hfiles : Forall tame (events (snd (run E typed on_disk))) ->
                   files (snd (run E typed on_disk)) = on_disk).
  { intros Ht. unfold files. now rewrite (replay_tame _ _ Ht), run_disk0. }
  revert Hfiles.
  destruct (run_shape E typed on_disk) as [rest [evs [r [Hprep Hrun]]]].
  rewrite Hrun. clear Hrun. destruct r as [[[yt v] a]|e|].
  - destruct Hprep as [Hq _]. cbv zeta. cbn [fst snd events].
    intros _ Hin. exfalso. apply in_app_or in Hin. destruct Hin as [Hin|Hin].
    + now apply quiet_not_found in Hin.
    + now apply (transcript_not_found E yt v a (home E // "Videos")) in Hin.
  - destruct e; cbn [prepared] in Hprep; try contradiction;
      cbn [fst snd handled status_of events]; intros Hfiles Hin.
    + exfalso. destruct Hprep as [pre [-> [Hq _]]].
      rewrite !in_app_iff in Hin. destruct Hin as [[Hin|Hin]|Hin].
      * now apply quiet_not_found in Hin.
      * simpl in Hin. intuition discriminate.
      * simpl in Hin. intuition discriminate.
    + destruct Hprep as [-> [pre [text [-> [Hq [_ Hwhy]]]]]].
      rewrite app_nil_r in *.
      destruct Hwhy as [[url [cls [msg [_ ->]]]]
                       |[-> [url [yt [r [Hyt [Hr Hnone]]]]]]].
      { exfalso. rewrite in_app_iff in Hin. destruct Hin as [Hin|Hin].
        - now apply quiet_not_found in Hin.
        - simpl in Hin. intuition discriminate. }
      destruct (resolve_video_listed _ _ Hr) as [v Hv].
      destruct (quiet_no_retrieval pre Hq) as [Hnr Hns].
      split; [reflexivity|]. split; [|split; [|split]].
      * exists pre, url, yt, r, v. repeat split; try assumption.
        destruct Hnone as [Hnone|Hnone]; [congruence | exact Hnone].
      * intros i p H. rewrite in_app_iff in H. destruct H as [H|H].
        -- now apply Hnr in H.
        -- simpl in H. intuition discriminate.
      * intros c H. rewrite in_app_iff in H. destruct H as [H|H].
        -- now apply Hns in H.
        -- simpl in H. intuition discriminate.
      * apply Hfiles. apply Forall_app. split; [now apply quiet_tame|].
        repeat constructor. discriminate.
    + exfalso. destruct Hprep as [Hq _]. rewrite app_nil_r in Hin.
      now apply quiet_not_found in Hin.
  - cbn [fst snd events]. intros _ Hin. exfalso. destruct Hprep as [Hq _].
    now apply quiet_not_found in Hin.
Qed.

Lemma missing_audio_scenario :
  fst (run Demo.no_audio [Demo.url; Typed "1"] []) = Exit 1
  /\ files (snd (run Demo.no_audio [Demo.url; Typed "1"] [])) = [].
Proof.
  destruct (missing_audio_reported Demo.no_audio [Demo.url; Typed "1"] [])
    as [Hst [_ [_ [_ Hfiles]]]]; [found|].
  split; assumption.
Defined.

Lemma prepare_fetch_failed E w line rest cls msg :
  keys w = Typed line :: rest ->
  spinner_interrupted E "Obtendo informações do vídeo" = false ->
  YouTube E (strip line) = inl (Failed cls msg) ->
  prepare E w
  = (Raise (SystemExit 1),
     advance w rest
       [Printed Msg.banner; Prompted Msg.ask_url;
        Printed (Msg.info_error (Error cls msg))]).
Proof.
  intros Hk Hspin Hyt. unfold prepare, clear_screen, print_banner.
  unfold bind at 1. unfold ret at 1. unfold bind at 1. rewrite print_run.
  unfold bind at 1. rewrite input_run, keys_advance, Hk.
  unfold bind at 1. rewrite loading_animation_run, Hspin.
  unfold bind at 1. rewrite get_video_info_run, Hyt.
  now rewrite !advance_advance.
Qed.

(** X6.  When the catalogue library fails on the address that was typed
    (taken without the white space around it), the run prints the error
    after the banner and the prompt and ends with exit status 1: no
    resolution is listed or asked for, the keys typed after the address
    stay unread and no file is touched. *)
Theorem asset_unavailable (E : Env) (line : string) (rest : list Key)
  (on_disk : list string) (cls msg : string) :
  spinner_interrupted E "Obtendo informações do vídeo" = false ->
  YouTube E (strip line) = inl (Failed cls msg) ->
  run E (Typed line :: rest) on_disk
  = (Exit 1,
     mkWorld rest on_disk
       [Printed Msg.banner; Prompted Msg.ask_url;
        Printed (Msg.info_error (Error cls msg))])
  /\ files (snd (run E (Typed line :: rest) on_disk)) = on_disk.
Proof.
  intros Hspin Hyt.
  assert (Hrun : run E (Typed line :: rest) on_disk
                 = (Exit 1,
                    mkWorld rest on_disk
                      [Printed Msg.banner; Prompted Msg.ask_url;
                       Printed (Msg.info_error (Error cls msg))])).
  { unfold run. rewrite entry_run, main_split. unfold bind.
    rewrite (prepare_fetch_failed E (start (Typed line :: rest) on_disk)
               line rest cls msg eq_refl Hspin Hyt).
    reflexivity. }
  split; [exact Hrun|]. now rewrite Hrun.
Qed.

Lemma asset_unavailable_scenario :
  fst (run (mkEnv "/home/user" Demo.ascii_int (fun t => t)
              (fun _ => inl (Failed "VideoUnavailable" "video is unavailable"))
              (fun _ => false) (fun _ _ => Downloaded)
              (fun _ => Exited 0 "" "") (fun _ => None))
         [Typed " https://youtu.be/xxxxxxxxxxx "; Typed "1"] [])
  = Exit 1.
Proof.
  exact (f_equal fst
           (proj1 (asset_unavailable
                     (mkEnv "/home/user" Demo.ascii_int (fun t => t)
                        (fun _ => inl (Failed "VideoUnavailable"
                                         "video is unavailable"))
                        (fun _ => false) (fun _ _ => Downloaded)
                        (fun _ => Exited 0 "" "") (fun _ => None))
                     " https://youtu.be/xxxxxxxxxxx " [Typed "1"] []
                     "VideoUnavailable" "video is unavailable"
                     eq_refl eq_refl))).
Defined.

(** X7.  The mux process is started at most once, and only after the video
    and then the audio were retrieved completely: its command line names
    the two files just written as inputs, in that order, and the output
    file.  The video is one that the catalogue library returned for an
    address; the descriptors retrieved are, of that video's catalogue, the
    video descriptor of a listed label and the audio descriptor that
    [main] resolved.  Nothing is retrieved or started again afterwards. *)
Theorem mux_after_both_retrievals (E : Env) (typed : list Key)
  (on_disk : list string) (c : list string) :
  In (Spawned c) (events (snd (run E typed on_disk))) ->
  exists pre post url yt video_stream audio_stream,
    let video_path := home E // "Videos" // video_name yt in
    let audio_path := home E // "Videos" // audio_name yt in
    let output_path := home E // "Videos" // output_name E yt video_stream in
    events (snd (run E typed on_disk))
    = pre ++ [Retrieving (itag video_stream) video_path; Wrote video_path;
              Retrieving (itag audio_stream) audio_path; Wrote audio_path;
              Printed Msg.merging; Spawned c] ++ post
    /\ c = ffmpeg_cmd video_path audio_path output_path
    /\ Forall quiet_event pre
    /\ (forall c', ~ In (Spawned c') post)
    /\ (forall i p, ~ In (Retrieving i p) post)
    /\ YouTube E url = inr yt
    /\ resolve_audio (YT.streams yt) = Some audio_stream
    /\ exists r,
         In r (availableResolutions (YT.streams yt))
         /\ resolve_video (YT.streams yt) r = Some video_stream.
Proof.
  intros Hin.
  destruct (run_cases_resolved E typed on_disk)
    as [Htame|[rest [evs [yt [v [a [Hq [Hi [[url Hurl] [Ha [Hv Hrun]]]]]]]]]]].
  { now apply (tame_in _ _ Htame) in Hin. }
  rewrite Hrun in *. cbn [snd events] in *.
  apply in_app_or in Hin. destruct Hin as [Hin|Hin].
  { now apply (quiet_in _ _ Hq) in Hin. }
  apply spawned_transcript in Hin.
  destruct Hin as [-> [post [HT [Hns Hnr]]]].
  exists evs, post, url, yt, v, a. cbv zeta. rewrite HT.
  split; [reflexivity|]. split; [reflexivity|]. split; [exact Hq|].
  split; [exact Hns|]. split; [exact Hnr|]. split; [exact Hurl|].
  split; [exact Ha | exact Hv].
Qed.

Lemma mux_after_both_retrievals_scenario :
  exists pre post url yt video_stream audio_stream,
    events (snd (run Demo.env [Demo.url; Typed "2"] []))
    = pre ++ [Retrieving (itag video_stream)
                (home Demo.env // "Videos" // video_name yt);
              Wrote (home Demo.env // "Videos" // video_name yt);
              Retrieving (itag audio_stream)
                (home Demo.env // "Videos" // audio_name yt);
              Wrote (home Demo.env // "Videos" // audio_name yt);
              Printed Msg.merging;
              Spawned
                (ffmpeg_cmd "/home/user/Videos/dQw4w9WgXcQ_video.mp4"
                   "/home/user/Videos/dQw4w9WgXcQ_audio.mp4"
                   "/home/user/Videos/never-gonna-give-you-up_720p.mp4")]
      ++ post
    /\ YouTube Demo.env url = inr yt
    /\ resolve_audio (YT.streams yt) = Some audio_stream.
Proof.
  destruct (mux_after_both_retrievals Demo.env [Demo.url; Typed "2"] []
              (ffmpeg_cmd "/home/user/Videos/dQw4w9WgXcQ_video.mp4"
                 "/home/user/Videos/dQw4w9WgXcQ_audio.mp4"
                 "/home/user/Videos/never-gonna-give-you-up_720p.mp4"))
    as [pre [post [url [yt [v [a [H [_ [_ [_ [_ [Hurl [Ha _]]]]]]]]]]]]];
    [found|].
  exists pre, post, url, yt, v, a.
  split; [exact H|]. split; [exact Hurl | exact Ha].
Defined.



(** X9.  The exit codes that the program chooses itself, by returning
    from [main] or by [sys.exit], are 0 and 1.  A run ends with code 0
    exactly when it reported success or was interrupted, and a run that
    ends with code 1 has printed, as the last thing it did, the message
    that says what failed.  Nothing is said of a run that ends with the
    traceback of an exception that no handler caught. *)
Theorem exit_code_reasons (E : Env) (typed : list Key)
  (on_disk : list string) :
  let st := fst (run E typed on_disk) in
  let w := snd (run E typed on_disk) in
  (st = Exit 0
   <-> In (Printed Msg.success) (events w) \/ In Interrupt (events w))
  /\ (forall code, st = Exit code -> code = 0%Z \/ code = 1%Z)
  /\ (st = Exit 1 ->
      exists pre text, events w = pre ++ [Printed text] /\ failure_text text).
Proof.
  cbv zeta.
  destruct (run_shape E typed on_disk) as [rest [evs [r [Hprep Hrun]]]].
  rewrite Hrun. clear Hrun.
  assert (Hquiet : forall l,
            Forall quiet_event l -> ~ In Interrupt l ->
            ~ (In (Printed Msg.success) l \/ In Interrupt l)).
  { intros l Hq Hi [H|H]; [|now apply Hi].
    apply (proj1 (Forall_forall _ _) Hq) in H. simpl in H. tauto. }
  destruct r as [[[yt v] a]|e|].
  - destruct Hprep as [Hq [Hi _]].
    change (status_of _, mkWorld rest on_disk _)
      with (fst (merge_transcript E yt v a (home E // "Videos")),
            mkWorld rest on_disk
              (evs ++ snd (merge_transcript E yt v a (home E // "Videos")))).
    cbn [fst snd events].
    destruct (transcript_status E yt v a (home E // "Videos"))
      as [[-> Hyes]|[-> [Hs [Hn [pre [e HT]]]]]].
    + split; [|split].
      * split; [intros _|reflexivity].
        rewrite !in_app_iff. tauto.
      * intros code Hc; first [discriminate Hc | injection Hc as <-; tauto].
      * discriminate.
    + split; [|split].
      * split; [discriminate|]. rewrite !in_app_iff.
        intros H. exfalso. apply (Hquiet evs Hq Hi). tauto.
      * intros code Hc; first [discriminate Hc | injection Hc as <-; tauto].
      * intros _. exists (evs ++ pre), (Msg.process_error e).
        split; [now rewrite HT, app_assoc|].
        right. exists e. now right.
  - destruct e; cbn [prepared] in Hprep; try contradiction;
      cbn [handled status_of fst snd events].
    + destruct Hprep as [pre [-> _]].
      split; [|split].
      * split; [intros _|reflexivity]. right.
        rewrite !in_app_iff. simpl. tauto.
      * intros code Hc; first [discriminate Hc | injection Hc as <-; tauto].
      * discriminate.
    + destruct Hprep as [-> [pre [text [-> [Hq [Hi Htext]]]]]].
      rewrite app_nil_r.
      assert (Hfail : failure_text text).
      { destruct Htext as [[url [cls [msg [_ ->]]]]|[-> _]].
        - right. eexists. left. reflexivity.
        - now left. }
      split; [|split].
      * split; [discriminate|]. rewrite !in_app_iff. simpl.
        intros H. exfalso. apply (Hquiet pre Hq Hi).
        destruct H as [[H|[H|[]]]|[H|[H|[]]]];
          [now left | | now right | discriminate].
        injection H as ->.
        destruct Htext as [[url [cls [msg [_ Ht]]]]|[Ht _]]; discriminate.
      * intros code Hc; first [discriminate Hc | injection Hc as <-; tauto].
      * intros _. now exists pre, text.
    + destruct Hprep as [Hq Hi]. rewrite app_nil_r.
      split; [|split].
      * split; [discriminate|]. intros H. exfalso. now apply (Hquiet evs).
      * intros code Hc; first [discriminate Hc | injection Hc as <-; tauto].
      * discriminate.
  - destruct Hprep as [Hq Hi]. cbn [fst snd events].
    split; [|split].
    + split; [discriminate|]. intros H. exfalso. now apply (Hquiet evs).
    + intros code Hc; first [discriminate Hc | injection Hc as <-; tauto].
    + discriminate.
Qed.

Lemma exit_code_scenario :
  fst (run Demo.mux_fails [Demo.url; Typed "1"] []) = Exit 1
  /\ exists pre text,
       events (snd (run Demo.mux_fails [Demo.url; Typed "1"] []))
       = pre ++ [Printed text]
       /\ failure_text text.
Proof.
  split; [reflexivity|].
  apply (exit_code_reasons Demo.mux_fails [Demo.url; Typed "1"] []).
  reflexivity.
Defined.

(** X10.  The only files a run ever deletes are the two temporary files of
    the video it fetched, named after the video's identifier in the
    destination directory.  Every other file that was on the disk before
    the run is still there at its end. *)
Theorem only_temporaries_deleted (E : Env) (typed : list Key)
  (on_disk : list string) (p : string) :
  In (Deleted p) (events (snd (run E typed on_disk))) ->
  (exists url yt,
     YouTube E url = inr yt
     /\ (p = home E // "Videos" // (YT.video_id yt +++ "_video.mp4")
         \/ p = home E // "Videos" // (YT.video_id yt +++ "_audio.mp4"))
     /\ forall q,
          In q on_disk ->
          q <> home E // "Videos" // (YT.video_id yt +++ "_video.mp4") ->
          q <> home E // "Videos" // (YT.video_id yt +++ "_audio.mp4") ->
          In q (files (snd (run E typed on_disk)))).
Proof.
  intros Hin.
  destruct (run_cases E typed on_disk)
    as [Htame|[rest [evs [yt [v [a [Hq [Hi [[url Hurl] Hrun]]]]]]]]].
  { now apply (tame_in _ _ Htame) in Hin. }
  rewrite Hrun in *. cbn [snd events] in *.
  apply in_app_or in Hin. destruct Hin as [Hin|Hin].
  { now apply (quiet_in _ _ Hq) in Hin. }
  apply deleted_transcript in Hin.
  exists url, yt. split; [exact Hurl|]. split; [exact Hin|].
  intros q Hq0 Hv Ha. unfold files. cbn [events disk0].
  apply replay_no_deletion; [|now left].
  rewrite in_app_iff. intros [H|H].
  - now apply (quiet_in _ _ Hq) in H.
  - apply deleted_transcript in H. destruct H; [now apply Hv | now apply Ha].
Qed.

Lemma only_temporaries_deleted_scenario :
  In "/home/user/Videos/holiday.mp4"
    (files (snd (run Demo.env [Demo.url; Typed "1"]
                   ["/home/user/Videos/holiday.mp4"]))).
Proof.
  destruct (only_temporaries_deleted Demo.env [Demo.url; Typed "1"]
              ["/home/user/Videos/holiday.mp4"]
              "/home/user/Videos/dQw4w9WgXcQ_video.mp4")
    as [url [yt [Hurl [_ Hkeep]]]]; [found|].
  cbv in Hurl. injection Hurl as <-.
  apply Hkeep; [now left | |]; intros H; cbv in H; discriminate H.
Defined.

(** X11.  After a run that reports success, the disk holds the output
    file and, of the files that were there before, every one but the two
    temporary files; nothing else was added or removed.  The output file
    is named after the title of the video that the catalogue library
    returned for an address and after the resolution of the video
    descriptor that its catalogue has for a listed label. *)
Theorem disk_after_success (E : Env) (typed : list Key)
  (on_disk : list string) :
  In (Printed Msg.success) (events (snd (run E typed on_disk))) ->
  exists url yt video_stream r,
    YouTube E url = inr yt
    /\ In r (availableResolutions (YT.streams yt))
    /\ resolve_video (YT.streams yt) r = Some video_stream
    /\ forall p,
         In p (files (snd (run E typed on_disk)))
         <-> p = home E // "Videos" // output_name E yt video_stream
             \/ (In p on_disk
                 /\ p <> home E // "Videos" // video_name yt
                 /\ p <> home E // "Videos" // audio_name yt).
Proof.
  intros Hin.
  destruct (run_cases_resolved E typed on_disk)
    as [Htame|[rest [evs [yt [v [a [Hq [Hi [[url Hurl] [Ha [[r Hv]
                                                            Hrun]]]]]]]]]]].
  { apply (tame_in _ _ Htame) in Hin. simpl in Hin. tauto. }
  rewrite Hrun in *. cbn [snd events] in *.
  apply in_app_or in Hin. destruct Hin as [Hin|Hin].
  { apply (proj1 (Forall_forall _ _) Hq) in Hin. simpl in Hin. tauto. }
  apply success_transcript in Hin.
  exists url, yt, v, r. split; [exact Hurl|].
  split; [apply Hv|]. split; [apply Hv|].
  intros p. unfold files. cbn [events disk0].
  rewrite replay_app, (replay_tame evs) by now apply quiet_tame.
  rewrite Hin. cbn [snd].
  destruct (output_name_not_temporary E yt v) as [Hnv Hna].
  assert (Hov : home E // "Videos" // output_name E yt v
                <> home E // "Videos" // video_name yt).
  { intros H. now apply path_join_inj in H. }
  assert (Hoa : home E // "Videos" // output_name E yt v
                <> home E // "Videos" // audio_name yt).
  { intros H. now apply path_join_inj in H. }
  repeat rewrite replay_cons.
  change (replay [] ?fs) with fs.
  cbn [apply_event].
  repeat match goal with
         | |- context [filter (fun q => negb (String.eqb q ?x)) ?fs] =>
             change (filter (fun q => negb (String.eqb q x)) fs)
               with (apply_event fs (Deleted x))
         end.
  rewrite !In_deleted.
  repeat match goal with
         | |- context [if existsb (String.eqb ?x) ?fs then ?fs else ?x :: ?fs] =>
             change (if existsb (String.eqb x) fs then fs else x :: fs)
               with (apply_event fs (Wrote x))
         end.
  rewrite !In_wrote.
  split.
  - intros [Hpa [Hpv [H|[H|[H|H]]]]]; tauto.
  - intros [->|[Hd [Hpv Hpa]]]; tauto.
Qed.

Lemma disk_after_success_scenario :
  exists url yt video_stream,
    YouTube Demo.env url = inr yt
    /\ forall p,
      In p (files (snd (run Demo.env [Demo.url; Typed "2"]
                          ["/home/user/Videos/holiday.mp4"])))
      <-> p = home Demo.env // "Videos" // output_name Demo.env yt video_stream
          \/ (In p ["/home/user/Videos/holiday.mp4"]
              /\ p <> home Demo.env // "Videos" // video_name yt
              /\ p <> home Demo.env // "Videos" // audio_name yt).
Proof.
  destruct (disk_after_success Demo.env [Demo.url; Typed "2"]
              ["/home/user/Videos/holiday.mp4"])
    as [url [yt [v [r [Hurl [_ [_ H]]]]]]]; [found|].
  exists url, yt, v. split; [exact Hurl | exact H].
Defined.

(** ** The duration shown for a video *)

Lemma split_at_colon (s s' t t' : string) :
  Slug.all_chars Slug.allowed s = true ->
  Slug.all_chars Slug.allowed s' = true ->
  s +++ ":" +++ t = s' +++ ":" +++ t' -> s = s' /\ t = t'.
Proof.
  revert s'. induction s as [|c s IH]; intros [|c' s'] Hs Hs' H;
    simpl in H, Hs, Hs'.
  - injection H as H. now split.
  - injection H as <- _. discriminate Hs'.
  - injection H as -> _. discriminate Hs.
  - injection H as <- H.
    apply andb_true_iff in Hs, Hs'.
    destruct (IH s' (proj2 Hs) (proj2 Hs') H) as [-> ->]. now split.
Qed.

Lemma of_N_inj (a b : N) : Text.of_N a = Text.of_N b -> a = b.
Proof.
  unfold Text.of_N. intros H.
  apply (f_equal NilEmpty.uint_of_string) in H.
  rewrite !NilEmpty.usu in H. injection H as H.
  apply (f_equal N.of_uint) in H.
  now rewrite !DecimalN.Unsigned.of_to in H.
Qed.

Lemma pad2_value (n : N) :
  option_map N.of_uint (NilEmpty.uint_of_string (pad2 n)) = Some n.
Proof.
  unfold pad2, Text.of_N. destruct (n <? 10)%N; simpl;
    rewrite NilEmpty.usu; simpl; f_equal;
    exact (DecimalN.Unsigned.of_to n).
Qed.

Lemma pad2_inj (a b : N) : pad2 a = pad2 b -> a = b.
Proof.
  intros H. apply (f_equal (fun s =>
    option_map N.of_uint (NilEmpty.uint_of_string s))) in H.
  rewrite !pad2_value in H. now injection H.
Qed.

Lemma pad2_two_digits (n : N) : (n < 60)%N -> String.length (pad2 n) = 2.
Proof.
  intros Hn.
  assert (Hall : forallb (fun k => Nat.eqb (String.length (pad2 (N.of_nat k))) 2)
                   (seq 0 60) = true) by (vm_compute; reflexivity).
  rewrite forallb_forall in Hall.
  specialize (Hall (N.to_nat n)). rewrite N2Nat.id in Hall.
  apply Nat.eqb_eq, Hall, in_seq. lia.
Qed.

(** X12.  For videos shorter than [2^53] seconds, where the floating
    point quotient of line 62 truncates to the exact quotient that
    [get_video_info] computes here: the duration is the number of whole
    minutes, a colon and the remaining seconds in exactly two digits;
    minutes are not folded into hours.  The text determines the length:
    two such videos are given the same duration text only if they last the
    same number of seconds. *)
Theorem duration_text_faithful (E : Env) (url1 url2 : string)
  (w1 w2 : World) (yt1 yt2 : YT.Video) (i1 i2 : Info) :
  (YT.length yt1 < 2 ^ 53)%N -> (YT.length yt2 < 2 ^ 53)%N ->
  fst (get_video_info E url1 w1) = Ret (yt1, i1) ->
  fst (get_video_info E url2 w2) = Ret (yt2, i2) ->
  (info_length i1 = info_length i2 <-> YT.length yt1 = YT.length yt2)
  /\ String.length (info_length i1)
     = String.length (Text.of_N (YT.length yt1 / 60)) + 3.
Proof.
  intros _ _. rewrite !get_video_info_run.
  destruct (YouTube E url1) as [[|c1 m1]|y1]; try discriminate.
  destruct (YouTube E url2) as [[|c2 m2]|y2]; try discriminate.
  cbn [fst]. intros H1 H2.
  injection H1 as <- <-. injection H2 as <- <-. cbn [info_length].
  split.
  - split; [|now intros ->].
    intros H. apply split_at_colon in H;
      try apply string_of_uint_digits.
    destruct H as [Hm Hs].
    apply of_N_inj in Hm. apply pad2_inj in Hs.
    rewrite (N.div_mod (YT.length y1) 60), (N.div_mod (YT.length y2) 60)
      by discriminate.
    now rewrite Hm, Hs.
  - rewrite append_length. cbn [String.length].
    rewrite pad2_two_digits by (apply N.mod_lt; discriminate).
    lia.
Qed.

Lemma duration_text_scenario :
  String.length
    (info_length (mkInfo "Never Gonna Give You Up" "Rick Astley" "3:33"
                    "1,500,000,000" "25/10/2009"))
  = String.length (Text.of_N (213 / 60)) + 3.
Proof.
  apply (duration_text_faithful Demo.env "https://youtu.be/dQw4w9WgXcQ"
           "https://youtu.be/dQw4w9WgXcQ" (start [] []) (start [] [])
           Demo.video Demo.video _ _ eq_refl eq_refl eq_refl eq_refl).
Defined.
